(** * CVATTools: annotation document to per-label masks

    A shallow embedding of [CVATTools.cpp].  The program reads a CVAT
    annotation document through pugixml, rasterises the geometries of every
    image with OpenCV and writes one mask per label and image.

    The classes of the source ([Geometry], [Image], [CVATMaskGenerator]) are
    modules here and keep the names of their member functions.  What the
    program takes from its libraries is modelled next to it: the document tree
    and the attribute conversions of pugixml, [std::from_chars], the path
    operations of [std::filesystem], and the drawing calls of OpenCV. *)

From Stdlib Require Import ZArith Ascii String DecimalString DecimalZ.
From Equations Require Import Equations.
From stdpp Require Import base tactics option list gmap strings.

Local Open Scope Z_scope.
Local Open Scope list_scope.

(** ** The C++ side: machine integers, exceptions *)

Module Cxx.

Definition INT_MIN : Z := - 2 ^ 31.
Definition INT_MAX : Z := 2 ^ 31 - 1.
Definition UINT_MAX : Z := 2 ^ 32 - 1.
Definition ULLONG_MAX : Z := 2 ^ 64 - 1.

Definition in_int (z : Z) : Prop := INT_MIN <= z <= INT_MAX.

Definition in_intb (z : Z) : bool := (INT_MIN <=? z) && (z <=? INT_MAX).

(** [(int) v]: conversion of an integer value to [int], modulo [2 ^ 32]. *)
Definition to_int (z : Z) : Z := (z + 2 ^ 31) mod 2 ^ 32 - 2 ^ 31.

(** What a C++ call can end with: a value, or a thrown exception. *)
Inductive exception : Type :=
| cv_Exception (what : string)
| filesystem_error (what : string).

Inductive result (A : Type) : Type :=
| Returns (a : A)
| Throws (e : exception).
Arguments Returns {A} a.
Arguments Throws {A} e.

#[global] Instance result_ret : MRet result := @Returns.

#[global] Instance result_bind : MBind result := fun A B k c =>
  match c with
  | Returns a => k a
  | Throws e => Throws e
  end.

(** A loop over a container whose body may throw: the exception leaves the
    loop at once. *)
Fixpoint for_each {A S : Type} (l : list A) (body : A -> S -> result S) (s : S) : result S :=
  match l with
  | [] => Returns s
  | a :: l' => match body a s with
               | Returns s' => for_each l' body s'
               | Throws e => Throws e
               end
  end.

(** A C string is the list of its characters, the terminator left out; a
    [const char *] into it is an offset, [length s] being the terminator. *)
Definition cstr := list ascii.

Definition c_str (s : string) : cstr := list_ascii_of_string s.

Fixpoint index_of (c : ascii) (l : cstr) : option nat :=
  match l with
  | [] => None
  | a :: l' => if Ascii.eqb a c then Some 0%nat else S <$> index_of c l'
  end.

(** [strchr(s + cur, c)] for [c] other than the terminator: the offset of
    the first [c] at or after [cur], [None] for the null pointer. *)
Definition strchr (s : cstr) (cur : nat) (c : ascii) : option nat :=
  Nat.add cur <$> index_of c (drop cur s).

(** The characters of the range [[first, last)].  A range with
    [last <= first] is read as empty; C++ leaves a call on a range with
    [last < first] undefined. *)
Definition chars_between (s : cstr) (first last : nat) : cstr :=
  take (last - first) (drop first s).

Definition is_digit (a : ascii) : bool :=
  let n := nat_of_ascii a in (48 <=? n)%nat && (n <=? 57)%nat.

Definition digit_value (a : ascii) : Z := Z.of_nat (nat_of_ascii a) - 48.

Fixpoint leading_digits (l : cstr) : cstr :=
  match l with
  | a :: l' => if is_digit a then a :: leading_digits l' else []
  | [] => []
  end.

Definition decimal_value (ds : cstr) : Z :=
  fold_left (fun acc d => 10 * acc + digit_value d) ds 0.

(** [std::from_chars(first, last, value)] for [int], base 10: an optional
    minus sign and then digits.  [range] is the characters of
    [[first, last)], [value] the content of the variable before the call;
    the result is its content after it.  Without a digit, or with a number
    that does not fit [int], the variable is left as it was. *)
Definition from_chars (range : cstr) (value : Z) : Z :=
  let '(negative, rest) :=
    match range with
    | "-"%char :: r => (true, r)
    | _ => (false, range)
    end in
  match leading_digits rest with
  | [] => value
  | ds =>
      let n := decimal_value ds in
      let v := if negative then - n else n in
      if in_intb v then v else value
  end.

End Cxx.

(** ** pugixml: the document tree and the attribute conversions *)

Module pugi.

Import Cxx.

Inductive xml_node_type : Type := node_document | node_element | node_pcdata | node_cdata.

#[warnings="-register-all"]
Inductive xml_node_struct : Type :=
| Node (type : xml_node_type) (name value : string)
       (attributes : list (string * string)) (children : list xml_node_struct).

(** An [xml_node] is a handle on a node of the tree, or the null handle; an
    [xml_attribute] is a handle on an attribute (here: its value), or null.
    Every accessor answers on the null handle as on an empty node. *)
Definition xml_node : Type := option xml_node_struct.
Definition xml_attribute : Type := option string.

Definition node_type (n : xml_node_struct) : xml_node_type :=
  match n with Node t _ _ _ _ => t end.
Definition node_name (n : xml_node_struct) : string :=
  match n with Node _ s _ _ _ => s end.
Definition node_value (n : xml_node_struct) : string :=
  match n with Node _ _ v _ _ => v end.
Definition node_attributes (n : xml_node_struct) : list (string * string) :=
  match n with Node _ _ _ a _ => a end.
Definition node_children (n : xml_node_struct) : list xml_node_struct :=
  match n with Node _ _ _ _ c => c end.

Definition name (n : xml_node) : string := from_option node_name EmptyString n.

(** [n.children()]: the handles of all child nodes, in document order. *)
Definition children (n : xml_node) : list xml_node :=
  from_option (fun s => Some <$> node_children s) [] n.

(** [n.children(name_)]: the child nodes of that name, in document order. *)
Definition children_named (n : xml_node) (name_ : string) : list xml_node :=
  filter (fun c => name c = name_) (children n).

(** [n.child(name_)]: the first child of that name, null when there is none. *)
Definition child (n : xml_node) (name_ : string) : xml_node :=
  mjoin (head (children_named n name_)).

Fixpoint find_attribute (name_ : string) (l : list (string * string)) : xml_attribute :=
  match l with
  | [] => None
  | (k, v) :: l' => if String.eqb k name_ then Some v else find_attribute name_ l'
  end.

(** [n.attribute(name_)]: the first attribute of that name. *)
Definition attribute (n : xml_node) (name_ : string) : xml_attribute :=
  n ≫= fun s => find_attribute name_ (node_attributes s).

Definition empty (a : xml_attribute) : bool := bool_decide (a = None).

Definition as_string (a : xml_attribute) : string := default EmptyString a.

Definition is_space (a : ascii) : bool :=
  let n := nat_of_ascii a in
  bool_decide (n = 9 \/ n = 10 \/ n = 13 \/ n = 32)%nat.

Fixpoint skip_space (l : cstr) : cstr :=
  match l with
  | a :: l' => if is_space a then skip_space l' else l
  | [] => []
  end.

Definition hex_digit (a : ascii) : option Z :=
  let n := nat_of_ascii a in
  if (48 <=? n)%nat && (n <=? 57)%nat then Some (Z.of_nat n - 48)
  else if (65 <=? n)%nat && (n <=? 70)%nat then Some (Z.of_nat n - 55)
  else if (97 <=? n)%nat && (n <=? 102)%nat then Some (Z.of_nat n - 87)
  else None.

Fixpoint hex_value (l : cstr) (acc : Z) : Z :=
  match l with
  | a :: l' => match hex_digit a with
               | Some d => hex_value l' (16 * acc + d)
               | None => acc
               end
  | [] => acc
  end.

(** [string_to_integer<U>(value, minv, maxv)]: blanks, a sign, then a
    decimal number or, after [0x], a hexadecimal one, read up to the first
    character that is no digit; the number is clamped to [[minv, maxv]].
    (The library accumulates in [U] and detects the overflow from the number
    of digits; the number read below is the one written in the text, which
    gives the same result.) *)
Definition string_to_integer (value : cstr) (minv maxv : Z) : Z :=
  let s := skip_space value in
  let negative := bool_decide (head s = Some "-"%char) in
  let s := match s with
           | a :: s' => if bool_decide (a = "+"%char \/ a = "-"%char) then s' else s
           | [] => s
           end in
  let result :=
    match s with
    | "0"%char :: x :: s' =>
        if bool_decide (x = "x"%char \/ x = "X"%char) then hex_value s' 0
        else decimal_value (leading_digits s)
    | _ => decimal_value (leading_digits s)
    end in
  if negative then (if - minv <? result then minv else - result)
  else (if maxv <? result then maxv else result).

Definition as_int (a : xml_attribute) : Z :=
  from_option (fun v => string_to_integer (c_str v) INT_MIN INT_MAX) 0 a.

Definition as_uint (a : xml_attribute) : Z :=
  from_option (fun v => string_to_integer (c_str v) 0 UINT_MAX) 0 a.

Definition as_ullong (a : xml_attribute) : Z :=
  from_option (fun v => string_to_integer (c_str v) 0 ULLONG_MAX) 0 a.

(** [n.text()]: the node itself when it is character data (or an element
    that carries a value), otherwise its first character-data child. *)
Definition is_text (s : xml_node_struct) : bool :=
  match node_type s with
  | node_pcdata | node_cdata => true
  | _ => false
  end.

Definition has_embedded_value (s : xml_node_struct) : bool :=
  match node_type s with
  | node_element => negb (String.eqb (node_value s) EmptyString)
  | _ => false
  end.

Definition text (n : xml_node) : option string :=
  n ≫= fun s =>
    if is_text s || has_embedded_value s then Some (node_value s)
    else node_value <$> head (filter (fun c => is_text c = true) (node_children s)).

Definition text_as_string (n : xml_node) : string := default EmptyString (text n).

(** What [load_file] reports; the tree it leaves is the other half of its
    outcome. *)
Inductive xml_parse_status : Type :=
| status_ok
| status_file_not_found
| status_io_error
| status_no_document_element
| status_malformed.

Definition xml_document : Type := xml_node_struct.

Definition empty_document : xml_document := Node node_document EmptyString EmptyString [] [].

End pugi.

(** ** OpenCV: matrices, rectangles and the drawing calls *)

Module cv.

Import Cxx.

Record Point : Type := mkPoint { pt_x : Z; pt_y : Z }.

Record Size : Type := mkSize { size_width : Z; size_height : Z }.

(** [cv::Rect{x, y, width, height}]: the pixels [x <= px < x + width],
    [y <= py < y + height]. *)
Record Rect : Type := mkRect { x : Z; y : Z; width : Z; height : Z }.

Definition Rect_default : Rect := mkRect 0 0 0 0.

Definition Rect_empty (r : Rect) : bool := (width r <=? 0) || (height r <=? 0).

Definition tl (r : Rect) : Point := mkPoint (x r) (y r).
Definition br (r : Rect) : Point := mkPoint (x r + width r) (y r + height r).

(** [a &= b]: the intersection, the default rectangle when it is empty. *)
Definition Rect_and (a b : Rect) : Rect :=
  let x1 := Z.max (x a) (x b) in
  let y1 := Z.max (y a) (y b) in
  let w := Z.min (x a + width a) (x b + width b) - x1 in
  let h := Z.min (y a + height a) (y b + height b) - y1 in
  if (w <=? 0) || (h <=? 0) then Rect_default else mkRect x1 y1 w h.

(** A [CV_8UC1] matrix: [rows] lines of [cols] bytes. *)
Record Mat : Type := mkMat { rows : Z; cols : Z; data : list (list Z) }.

(** [saturate_cast<uchar>]: how a colour given as a number reaches a byte. *)
Definition saturate_uchar (v : Z) : Z := Z.max 0 (Z.min 255 v).

(** [cv::Mat(rows, cols, CV_8UC1, s)]: a fresh matrix filled with [s];
    negative dimensions are refused with an exception. *)
Definition Mat_create (rows_ cols_ : Z) (s : Z) : result Mat :=
  if (rows_ <? 0) || (cols_ <? 0)
  then Throws (cv_Exception "Assertion failed: s >= 0")
  else Returns (mkMat rows_ cols_
                  (replicate (Z.to_nat rows_) (replicate (Z.to_nat cols_) (saturate_uchar s)))).

(** The byte at column [px], line [py]. *)
Definition at_ (m : Mat) (px py : nat) : option Z := data m !! py ≫= fun row => row !! px.

(** Every drawing call used by the program writes one colour to a set of
    pixels of the image and leaves the others alone: [paint inside c m]
    writes [c] wherever [inside px py] holds. *)
Definition paint (inside : Z -> Z -> bool) (color : Z) (m : Mat) : Mat :=
  mkMat (rows m) (cols m)
    (imap (fun py row =>
             imap (fun px v => if inside (Z.of_nat px) (Z.of_nat py) then saturate_uchar color else v) row)
          (data m)).

(** [cv::rectangle(img, pt1, pt2, color, cv::FILLED)]: both corners belong
    to the filled rectangle. *)
Definition rectangle_pts (img : Mat) (pt1 pt2 : Point) (color : Z) : Mat :=
  paint (fun px py => (pt_x pt1 <=? px) && (px <=? pt_x pt2) &&
                      (pt_y pt1 <=? py) && (py <=? pt_y pt2)) color img.

(** [cv::rectangle(img, rec, color, cv::FILLED)]: the rectangle is cropped to
    just around the image and, unless empty, filled from its top left corner
    to the pixel before its bottom right corner. *)
Definition rectangle (img : Mat) (rec : Rect) (color : Z) : Mat :=
  let rec := Rect_and rec (mkRect (-1) (-1) (cols img + 2) (rows img + 2)) in
  if Rect_empty rec then img
  else rectangle_pts img (tl rec) (mkPoint (pt_x (br rec) - 1) (pt_y (br rec) - 1)) color.

(** [cv::circle(img, center, 0, color, cv::FILLED)]: with radius 0 the disc
    is the centre pixel. *)
Definition circle_radius0 (img : Mat) (center : Point) (color : Z) : Mat :=
  paint (fun px py => (px =? pt_x center) && (py =? pt_y center)) color img.

(** The scan conversion of polygons, polylines and ellipses is OpenCV's own;
    the program only chooses the arguments and the colour.  The pixels each
    call covers on an image of a given size are taken as they come: *)
Record primitives : Type := mkPrimitives {
  float : Type;
  float_of_literal_0 : float;
  strtof : string -> float;
  fillPoly_covers : Z -> Z -> list Point -> Z -> Z -> bool;
  polylines_covers : Z -> Z -> list Point -> bool -> Z -> Z -> bool;
  ellipse_covers : Z -> Z -> Point -> Size -> float -> Z -> Z -> Z -> Z -> bool
}.

Section Primitives.
Context (P : primitives).

(** [cv::fillPoly(img, pts, color)] *)
Definition fillPoly (img : Mat) (pts : list Point) (color : Z) : Mat :=
  paint (fillPoly_covers P (rows img) (cols img) pts) color img.

(** [cv::polylines(img, pts, isClosed, color)] *)
Definition polylines (img : Mat) (pts : list Point) (isClosed : bool) (color : Z) : Mat :=
  paint (polylines_covers P (rows img) (cols img) pts isClosed) color img.

(** [cv::ellipse(img, center, axes, angle, startAngle, endAngle, color, cv::FILLED)] *)
Definition ellipse (img : Mat) (center : Point) (axes : Size) (angle : float P)
    (startAngle endAngle : Z) (color : Z) : Mat :=
  paint (ellipse_covers P (rows img) (cols img) center axes angle startAngle endAngle) color img.

End Primitives.

End cv.

(** ** The program *)

(** What the program leaves to its platform: the drawing primitives, and the
    content of an [int] that is read before anything was stored in it
    ([parse_points] declares [int x, y;] and lets [std::from_chars] fill
    them, which it does not do on a malformed number).  C++ leaves such a
    read undefined; here it gives one fixed value, whatever it is. *)
Record platform : Type := mkPlatform {
  uninitialized_int : Z;
  opencv : cv.primitives
}.

Module Geometry.

Import Cxx.

Section Geometry.
Context (Pf : platform).

(** [Geometry] wraps the node of one shape. *)
Definition t : Type := pugi.xml_node.

Definition x_coord_end (s : cstr) (cur : nat) : nat :=
  default (length s) (strchr s cur ","%char).

Definition y_coord_end (s : cstr) (cur : nat) : nat :=
  default (length s) (strchr s cur ";"%char).

(** One turn of the loop of [parse_points]: the point read at [cur]. *)
Definition point_at (s : cstr) (cur : nat) : cv.Point :=
  let x := from_chars (chars_between s cur (x_coord_end s cur)) (uninitialized_int Pf) in
  let y := from_chars (chars_between s (x_coord_end s cur + 1) (y_coord_end s cur))
             (uninitialized_int Pf) in
  cv.mkPoint x y.

(** The loop [while (cur < ptr_end)], the points in the order of
    [emplace_back]. *)
Equations? parse_points_from (s : cstr) (cur : nat) : list cv.Point
  by wf (length s - cur)%nat lt :=
  parse_points_from s cur with decide (cur < length s)%nat => {
    | left _ => point_at s cur :: parse_points_from s (y_coord_end s cur + 1)
    | right _ => [] }.
Proof.
  assert (Hidx : forall c (t : cstr) i, index_of c t = Some i -> (i < length t)%nat).
  { intros c t. induction t as [|a t IH]; intros i; simpl; [done|].
    destruct (Ascii.eqb a c); [intros [= <-]; lia|].
    destruct (index_of c t) as [j|]; simpl; [|done].
    intros [= <-]. specialize (IH j eq_refl). lia. }
  unfold y_coord_end, strchr.
  destruct (index_of ";"%char (drop cur s)) as [j|] eqn:E; simpl; [|lia].
  apply Hidx in E. rewrite length_drop in E. lia.
Qed.

Definition parse_points (node_with_point_attr : pugi.xml_node) : list cv.Point :=
  let ptr_start := c_str (pugi.as_string (pugi.attribute node_with_point_attr "points")) in
  parse_points_from ptr_start 0.

Definition group (m_geometry : t) : option Z :=
  let g := pugi.attribute m_geometry "group_id" in
  if pugi.empty g then None else Some (pugi.as_uint g).

Definition label (m_geometry : t) : string :=
  pugi.as_string (pugi.attribute m_geometry "label").

Definition draw_mask (m_geometry : t) (in_out : cv.Mat) : cv.Mat :=
  if String.eqb (pugi.name m_geometry) "polygon" then
    let pts := parse_points m_geometry in
    cv.fillPoly (opencv Pf) in_out pts 255
  else if String.eqb (pugi.name m_geometry) "box" then
    let xtl := pugi.as_int (pugi.attribute m_geometry "xtl") in
    let ytl := pugi.as_int (pugi.attribute m_geometry "ytl") in
    let xbr := pugi.as_int (pugi.attribute m_geometry "xbr") in
    let ybr := pugi.as_int (pugi.attribute m_geometry "ybr") in
    cv.rectangle in_out (cv.mkRect xtl ytl (to_int (xbr - xtl)) (to_int (ybr - ytl))) 255
  else if String.eqb (pugi.name m_geometry) "points" then
    let pts := parse_points m_geometry in
    fold_left (fun img p => cv.circle_radius0 img p 255) pts in_out
  else if String.eqb (pugi.name m_geometry) "polyline" then
    let pts := parse_points m_geometry in
    cv.polylines (opencv Pf) in_out pts false 255
  else if String.eqb (pugi.name m_geometry) "ellipse" then
    let x := pugi.as_int (pugi.attribute m_geometry "cx") in
    let y := pugi.as_int (pugi.attribute m_geometry "cy") in
    let rx := pugi.as_int (pugi.attribute m_geometry "rx") in
    let ry := pugi.as_int (pugi.attribute m_geometry "ry") in
    let rotation_grad :=
      match pugi.attribute m_geometry "rotation" with
      | Some v => cv.strtof (opencv Pf) v
      | None => cv.float_of_literal_0 (opencv Pf)
      end in
    cv.ellipse (opencv Pf) in_out (cv.mkPoint x y) (cv.mkSize rx ry) rotation_grad 0 360 255
  else in_out.

End Geometry.

End Geometry.

(** ** Coordinate strings

    The [points] attribute of the format: [x1,y1;x2,y2;...;xn,yn], every
    coordinate an integer in decimal notation. *)

Module CoordinateText.

Import Cxx.

(** The decimal notation of an integer. *)
Definition show_int (z : Z) : cstr := c_str (NilZero.string_of_int (Z.to_int z)).

Definition show_point (p : cv.Point) : cstr :=
  show_int (cv.pt_x p) ++ ","%char :: show_int (cv.pt_y p).

Fixpoint show_points (pts : list cv.Point) : cstr :=
  match pts with
  | [] => []
  | [p] => show_point p
  | p :: rest => show_point p ++ ";"%char :: show_points rest
  end.

Definition in_int_point (p : cv.Point) : Prop := in_int (cv.pt_x p) /\ in_int (cv.pt_y p).

(** [plain c l]: the character [c] does not occur in [l]. *)
Definition plain (c : ascii) (l : cstr) : Prop := Forall (fun a => a <> c) l.

(** The characters of a decimal number, digit by digit. *)
Fixpoint uint_chars (d : Decimal.uint) : cstr :=
  match d with
  | Decimal.Nil => []
  | Decimal.D0 l => "0"%char :: uint_chars l
  | Decimal.D1 l => "1"%char :: uint_chars l
  | Decimal.D2 l => "2"%char :: uint_chars l
  | Decimal.D3 l => "3"%char :: uint_chars l
  | Decimal.D4 l => "4"%char :: uint_chars l
  | Decimal.D5 l => "5"%char :: uint_chars l
  | Decimal.D6 l => "6"%char :: uint_chars l
  | Decimal.D7 l => "7"%char :: uint_chars l
  | Decimal.D8 l => "8"%char :: uint_chars l
  | Decimal.D9 l => "9"%char :: uint_chars l
  end.


(** A coordinate as the annotation tool writes it: the integer part and the
    text of the fraction, empty or a period and digits. *)
Definition fraction_text (f : cstr) : Prop :=
  f = [] \/ exists ds, f = "."%char :: ds /\ Forall (fun a => is_digit a = true) ds.

Definition show_coord (c : Z * cstr) : cstr := show_int c.1 ++ c.2.

Definition show_fpoint (p : (Z * cstr) * (Z * cstr)) : cstr :=
  show_coord p.1 ++ ","%char :: show_coord p.2.

Fixpoint show_fpoints (pts : list ((Z * cstr) * (Z * cstr))) : cstr :=
  match pts with
  | [] => []
  | [p] => show_fpoint p
  | p :: rest => show_fpoint p ++ ";"%char :: show_fpoints rest
  end.

Definition fpoint_ok (p : (Z * cstr) * (Z * cstr)) : Prop :=
  in_int p.1.1 /\ fraction_text p.1.2 /\ in_int p.2.1 /\ fraction_text p.2.2.

End CoordinateText.

(** ** [std::filesystem::path], in the POSIX pathname format *)

Module path.

Import Cxx.

Fixpoint rindex_of (c : ascii) (l : cstr) : option nat :=
  match l with
  | [] => None
  | a :: l' => match rindex_of c l' with
               | Some i => Some (S i)
               | None => if Ascii.eqb a c then Some 0%nat else None
               end
  end.

Definition is_absolute (p : cstr) : bool :=
  match p with "/"%char :: _ => true | _ => false end.

Definition has_filename (p : cstr) : bool :=
  match last p with
  | Some c => negb (Ascii.eqb c "/")
  | None => false
  end.

(** [filename()]: what follows the last separator. *)
Definition filename (p : cstr) : cstr :=
  match rindex_of "/"%char p with
  | Some i => drop (S i) p
  | None => p
  end.

(** [extension()]: from the rightmost period of the filename on, unless the
    filename is dot or dot-dot, has no period, or has its only period in
    front. *)
Definition extension (p : cstr) : cstr :=
  let fn := filename p in
  if bool_decide (fn = ["."%char] \/ fn = ["."%char; "."%char]) then []
  else match rindex_of "."%char fn with
       | Some (S i) => drop (S i) fn
       | _ => []
       end.

(** [p.replace_extension(replacement)] *)
Definition replace_extension (p replacement : string) : string :=
  let p := c_str p in
  let r := c_str replacement in
  let stem := take (length p - length (extension p)) p in
  let dot := match r with
             | [] => []
             | c :: _ => if Ascii.eqb c "." then [] else ["."%char]
             end in
  string_of_list_ascii (stem ++ dot ++ r).

(** [a / b] *)
Definition append (a b : string) : string :=
  if is_absolute (c_str b) then b
  else if has_filename (c_str a) then (a ++ "/" ++ b)%string
  else (a ++ b)%string.

End path.

Module Image.

Import Cxx.

Section Image.
Context (Pf : platform).

(** [Image] wraps the node of one image. *)
Definition t : Type := pugi.xml_node.

(** [size_t] is taken to have the size of [unsigned long long]. *)
Definition width (m_image_node : t) : Z :=
  pugi.as_ullong (pugi.attribute m_image_node "width").

Definition height (m_image_node : t) : Z :=
  pugi.as_ullong (pugi.attribute m_image_node "height").

Definition labels (m_image_node : t) : list string :=
  fold_left (fun result geometry => result ++ [Geometry.label geometry])
    (pugi.children m_image_node) [].

Definition empty_mask (m_image_node : t) : result cv.Mat :=
  let h := height m_image_node in
  let w := width m_image_node in
  cv.Mat_create (to_int h) (to_int w) 0.

Definition filename (m_image_node : t) : string :=
  pugi.as_string (pugi.attribute m_image_node "name").

Definition mask_combined (m_image_node : t) (label : string) : result cv.Mat :=
  result ← empty_mask m_image_node;
  mret (fold_left
          (fun result geo =>
             if bool_decide (Geometry.label geo ≠ label) then result
             else Geometry.draw_mask Pf geo result)
          (pugi.children m_image_node) result).

(** In [mask] several [cv::Mat] headers can share one pixel buffer: a header
    is the index of its buffer in the store of all buffers allocated so far,
    and drawing through a header changes the buffer for every header on it. *)
Record mask_locals : Type := mkLocals {
  store : list cv.Mat;
  groups : gmap Z nat;
  result_ : list nat
}.

Definition mask_body (m_image_node : t) (label : string)
    (geo : Geometry.t) (st : mask_locals) : result mask_locals :=
  if bool_decide (Geometry.label geo ≠ label) then mret st
  else
    let group := Geometry.group geo in
    fresh ← empty_mask m_image_node;
    let mat := length (store st) in
    let store1 := store st ++ [fresh] in
    let '(mat, groups1) :=
      match group with
      | Some g =>
          (* groups.insert({group.value(), mat}).first->second *)
          match groups st !! to_int g with
          | Some present => (present, groups st)
          | None => (mat, <[to_int g := mat]> (groups st))
          end
      | None => (mat, groups st)
      end in
    mret (mkLocals (alter (Geometry.draw_mask Pf geo) mat store1) groups1
                   (result_ st ++ [mat])).

(** [mask] returns the vector of headers; the store gives their pixels. *)
Definition mask (m_image_node : t) (label : string) : result (list nat * list cv.Mat) :=
  st ← for_each (pugi.children m_image_node) (mask_body m_image_node label)
         (mkLocals [] ∅ []);
  mret (result_ st, store st).

(** In [masks] the buffers are filed under their label in [result], and the
    headers filed under a group in [groups] point to buffers of [result]. *)
Record masks_locals : Type := mkMasksLocals {
  masks_store : list cv.Mat;
  masks_result : gmap string nat;
  masks_groups : gmap Z nat
}.

Definition masks_body (m_image_node : t) (geometry : Geometry.t) (st : masks_locals)
    : result masks_locals :=
  let h := height m_image_node in
  let w := width m_image_node in
  let label := Geometry.label geometry in
  (* result.try_emplace(label, (int)h, (int)w, CV_8UC1, 0).first->second *)
  '(mat, store1, result1) ←
    match masks_result st !! label with
    | Some present => mret (present, masks_store st, masks_result st)
    | None =>
        fresh ← cv.Mat_create (to_int h) (to_int w) 0;
        mret (length (masks_store st), masks_store st ++ [fresh],
              <[label := length (masks_store st)]> (masks_result st))
    end;
  let group := Geometry.group geometry in
  let '(mat, groups1) :=
    match group with
    | Some g =>
        (* groups.try_emplace(group.value(), mat).first->second *)
        match masks_groups st !! to_int g with
        | Some present => (present, masks_groups st)
        | None => (mat, <[to_int g := mat]> (masks_groups st))
        end
    | None => (mat, masks_groups st)
    end in
  mret (mkMasksLocals (alter (Geometry.draw_mask Pf geometry) mat store1) result1 groups1).

(** [masks] returns the map from labels to headers; the store gives their
    pixels. *)
Definition masks (m_image_node : t) : result (gmap string nat * list cv.Mat) :=
  st ← for_each (pugi.children m_image_node) (masks_body m_image_node)
         (mkMasksLocals [] ∅ ∅);
  mret (masks_result st, masks_store st).

End Image.

(** The pixels filed under a label in a returned map. *)
Definition mask_of (v : gmap string nat * list cv.Mat) (label : string) : option cv.Mat :=
  v.1 !! label ≫= fun header => v.2 !! header.

(** The pixels seen through the headers of a returned vector. *)
Definition pixels (v : list nat * list cv.Mat) : list (option cv.Mat) :=
  (fun header => v.2 !! header) <$> v.1.

End Image.

(** ** Notions used to state the properties of masks *)

Module Raster.

Import Cxx.

(** The lines of a matrix are as many and as long as its header says. *)
Definition well_formed (m : cv.Mat) : Prop :=
  0 <= cv.rows m /\ 0 <= cv.cols m /\
  length (cv.data m) = Z.to_nat (cv.rows m) /\
  Forall (fun row => length row = Z.to_nat (cv.cols m)) (cv.data m).

(** Every byte is background or foreground. *)
Definition binary (m : cv.Mat) : Prop :=
  Forall (Forall (fun v => v = 0 \/ v = 255)) (cv.data m).

(** The pixels [cv::rectangle] fills for a rectangle on an image of a given
    size. *)
Definition rect_covers (rows cols : Z) (rec : cv.Rect) (px py : Z) : bool :=
  let rec := cv.Rect_and rec (cv.mkRect (-1) (-1) (cols + 2) (rows + 2)) in
  negb (cv.Rect_empty rec) &&
  ((cv.x rec <=? px) && (px <=? cv.x rec + cv.width rec - 1) &&
   (cv.y rec <=? py) && (py <=? cv.y rec + cv.height rec - 1)).

(** The pixels of a list of points. *)
Definition points_cover (pts : list cv.Point) (px py : Z) : bool :=
  existsb (fun p => (px =? cv.pt_x p) && (py =? cv.pt_y p)) pts.

(** The rectangle [draw_mask] builds from the corners of a box. *)
Definition box_rect (g : Geometry.t) : cv.Rect :=
  let xtl := pugi.as_int (pugi.attribute g "xtl") in
  let ytl := pugi.as_int (pugi.attribute g "ytl") in
  let xbr := pugi.as_int (pugi.attribute g "xbr") in
  let ybr := pugi.as_int (pugi.attribute g "ybr") in
  cv.mkRect xtl ytl (to_int (xbr - xtl)) (to_int (ybr - ytl)).

(** The pixels the shape of a geometry covers on an image of a given size:
    what [draw_mask] hands to OpenCV, branch by branch. *)
Definition covered (Pf : platform) (g : Geometry.t) (rows cols : Z) (px py : Z) : bool :=
  if String.eqb (pugi.name g) "polygon" then
    cv.fillPoly_covers (opencv Pf) rows cols (Geometry.parse_points Pf g) px py
  else if String.eqb (pugi.name g) "box" then
    rect_covers rows cols (box_rect g) px py
  else if String.eqb (pugi.name g) "points" then
    points_cover (Geometry.parse_points Pf g) px py
  else if String.eqb (pugi.name g) "polyline" then
    cv.polylines_covers (opencv Pf) rows cols (Geometry.parse_points Pf g) false px py
  else if String.eqb (pugi.name g) "ellipse" then
    cv.ellipse_covers (opencv Pf) rows cols
      (cv.mkPoint (pugi.as_int (pugi.attribute g "cx")) (pugi.as_int (pugi.attribute g "cy")))
      (cv.mkSize (pugi.as_int (pugi.attribute g "rx")) (pugi.as_int (pugi.attribute g "ry")))
      (match pugi.attribute g "rotation" with
       | Some v => cv.strtof (opencv Pf) v
       | None => cv.float_of_literal_0 (opencv Pf)
       end) 0 360 px py
  else false.

(** Drawing a sequence of geometries, one after the other, onto one mask. *)
Definition draw_all (Pf : platform) (geos : list Geometry.t) (m : cv.Mat) : cv.Mat :=
  fold_left (fun m g => Geometry.draw_mask Pf g m) geos m.

(** The union of two masks: bitwise or, pixel by pixel. *)
Definition mat_or (a b : cv.Mat) : cv.Mat :=
  cv.mkMat (cv.rows a) (cv.cols a) (zip_with (zip_with Z.lor) (cv.data a) (cv.data b)).

(** The geometries that carry a label, in document order. *)
Definition with_label (label : string) (geos : list Geometry.t) : list Geometry.t :=
  filter (fun g => Geometry.label g = label) geos.

(** The key under which [mask] files the buffer of a geometry of a group:
    [group.value()] converted to the [int] key of the map. *)
Definition group_key (g : Geometry.t) : option Z := to_int <$> Geometry.group g.

(** The geometries drawn on the buffer of [g]: those of its group, or [g]
    alone when it has none. *)
Definition partition_of (geos : list Geometry.t) (g : Geometry.t) : list Geometry.t :=
  match group_key g with
  | Some k => filter (fun g' => group_key g' = Some k) geos
  | None => [g]
  end.

(** The geometries of the partition of [g]: those with the group of [g], or
    [g] alone when it has none. *)
Definition members (geos : list Geometry.t) (g : Geometry.t) : list Geometry.t :=
  match Geometry.group g with
  | Some id => filter (fun g' => Geometry.group g' = Some id) geos
  | None => [g]
  end.

(** What holds of the locals of [mask] after the geometries [done] of the
    label were drawn on buffers that start as [m0]. *)
Record mask_invariant (Pf : platform) (m0 : cv.Mat) (done : list Geometry.t)
    (st : Image.mask_locals) : Prop := mkMaskInvariant {
  inv_length : length (Image.result_ st) = length done;
  inv_header : forall i g h,
    done !! i = Some g -> Image.result_ st !! i = Some h ->
    Image.store st !! h = Some (draw_all Pf (partition_of done g) m0) /\
    match group_key g with
    | Some k => Image.groups st !! k = Some h
    | None => (forall k, Image.groups st !! k <> Some h) /\
              (forall j, Image.result_ st !! j = Some h -> j = i)
    end;
  inv_groups : forall k h,
    Image.groups st !! k = Some h ->
    Image.store st !! h
    = Some (draw_all Pf (filter (fun g => group_key g = Some k) done) m0);
  inv_fresh : forall k,
    Image.groups st !! k = None -> Forall (fun g => group_key g <> Some k) done;
  inv_inj : forall k k' h,
    Image.groups st !! k = Some h -> Image.groups st !! k' = Some h -> k = k'
}.

End Raster.

(** What the program reaches outside itself: the document loader, the file
    system and the image writer. *)
Record world : Type := mkWorld {
  load_file : string -> pugi.xml_parse_status * pugi.xml_document;
  filesystem : Type;
  fs_exists : filesystem -> string -> bool;
  fs_is_directory : filesystem -> string -> bool;
  fs_create_directories : filesystem -> string -> Cxx.result filesystem;
  imwrite : filesystem -> string -> cv.Mat -> Cxx.result bool
}.

Module CVATMaskGenerator.

Import Cxx.

Record t : Type := mkGenerator {
  m_doc : pugi.xml_document;
  m_annotations : pugi.xml_node;
  m_task : pugi.xml_node
}.

(** The constructor. *)
Definition make (doc : pugi.xml_document) : t :=
  let annotations := pugi.child (Some doc) "annotations" in
  mkGenerator doc annotations (pugi.child (pugi.child annotations "meta") "task").

(** [from_file]: what [load_file] reports is dropped, the tree it left is
    used. *)
Definition from_file (W : world) (file : string) : t :=
  let '(_, doc) := load_file W file in
  make doc.

Definition images (g : t) : list Image.t :=
  pugi.children_named (m_annotations g) "image".

Definition labels (g : t) : list string :=
  fold_left
    (fun result l => result ++ [pugi.text_as_string (pugi.child l "name")])
    (pugi.children (pugi.child (m_task g) "labels")) [].

Definition filenames (g : t) : list string :=
  fold_left
    (fun files image =>
       let attr := pugi.attribute image "name" in
       if negb (pugi.empty attr) then files ++ [pugi.as_string attr] else files)
    (pugi.children_named (m_annotations g) "image") [].

(** [labels(filename)], the second function of that name. *)
Definition labels_of_file (g : t) (filename : string) : list string :=
  fold_left
    (fun labels image =>
       if bool_decide (filename ≠ pugi.as_string (pugi.attribute image "name")) then labels
       else fold_left
              (fun labels geometry =>
                 labels ++ [pugi.as_string (pugi.attribute geometry "label")])
              (pugi.children image) labels)
    (pugi.children_named (m_annotations g) "image") [].

Section ParsePoints.
Context (Pf : platform).

(** The class has its own copy of [parse_points], the text of
    [Geometry::parse_points] once more. *)
Equations? parse_points_from (s : cstr) (cur : nat) : list cv.Point
  by wf (length s - cur)%nat lt :=
  parse_points_from s cur with decide (cur < length s)%nat => {
    | left _ => Geometry.point_at Pf s cur
                  :: parse_points_from s (Geometry.y_coord_end s cur + 1)
    | right _ => [] }.
Proof.
  assert (Hidx : forall c (t : cstr) i, index_of c t = Some i -> (i < length t)%nat).
  { intros c t. induction t as [|a t IH]; intros i; simpl; [done|].
    destruct (Ascii.eqb a c); [intros [= <-]; lia|].
    destruct (index_of c t) as [j|]; simpl; [|done].
    intros [= <-]. specialize (IH j eq_refl). lia. }
  unfold Geometry.y_coord_end, strchr.
  destruct (index_of ";"%char (drop cur s)) as [j|] eqn:E; simpl; [|lia].
  apply Hidx in E. rewrite length_drop in E. lia.
Qed.

Definition parse_points (node_with_point_attr : pugi.xml_node) : list cv.Point :=
  let ptr_start := c_str (pugi.as_string (pugi.attribute node_with_point_attr "points")) in
  parse_points_from ptr_start 0.

End ParsePoints.

Section Masks.
Context (Pf : platform).

(** The drawing code of [masks], the branches of [Geometry::draw_mask]
    written out once more on [geometry] and [mask]. *)
Definition masks_draw (geometry : pugi.xml_node) (mask : cv.Mat) : cv.Mat :=
  if String.eqb (pugi.name geometry) "polygon" then
    let pts := parse_points Pf geometry in
    cv.fillPoly (opencv Pf) mask pts 255
  else if String.eqb (pugi.name geometry) "box" then
    let xtl := pugi.as_int (pugi.attribute geometry "xtl") in
    let ytl := pugi.as_int (pugi.attribute geometry "ytl") in
    let xbr := pugi.as_int (pugi.attribute geometry "xbr") in
    let ybr := pugi.as_int (pugi.attribute geometry "ybr") in
    cv.rectangle mask (cv.mkRect xtl ytl (to_int (xbr - xtl)) (to_int (ybr - ytl))) 255
  else if String.eqb (pugi.name geometry) "points" then
    let pts := parse_points Pf geometry in
    fold_left (fun img p => cv.circle_radius0 img p 255) pts mask
  else if String.eqb (pugi.name geometry) "polyline" then
    let pts := parse_points Pf geometry in
    cv.polylines (opencv Pf) mask pts false 255
  else if String.eqb (pugi.name geometry) "ellipse" then
    let x := pugi.as_int (pugi.attribute geometry "cx") in
    let y := pugi.as_int (pugi.attribute geometry "cy") in
    let rx := pugi.as_int (pugi.attribute geometry "rx") in
    let ry := pugi.as_int (pugi.attribute geometry "ry") in
    let rotation_grad :=
      match pugi.attribute geometry "rotation" with
      | Some v => cv.strtof (opencv Pf) v
      | None => cv.float_of_literal_0 (opencv Pf)
      end in
    cv.ellipse (opencv Pf) mask (cv.mkPoint x y) (cv.mkSize rx ry) rotation_grad 0 360 255
  else mask.

(** The body of the loop over the geometries of one image.  The locals are
    those of [Image::mask]: the store of the buffers, [group_ids] and
    [mats]. *)
Definition masks_geometry (height width : Z) (label : string)
    (geometry : pugi.xml_node) (st : Image.mask_locals) : result Image.mask_locals :=
  if bool_decide (label ≠ pugi.as_string (pugi.attribute geometry "label")) then mret st
  else
    let group_id := pugi.attribute geometry "group_id" in
    '(mask, store1, group_ids1) ←
      (if pugi.empty group_id then
         fresh ← cv.Mat_create height width 0;
         mret (length (Image.store st), Image.store st ++ [fresh], Image.groups st)
       else
         '(store1, group_ids1) ←
           (if bool_decide (is_Some (Image.groups st !! pugi.as_int group_id))
            then mret (Image.store st, Image.groups st)
            else
              fresh ← cv.Mat_create height width 0;
              mret (Image.store st ++ [fresh],
                    <[pugi.as_int group_id := length (Image.store st)]> (Image.groups st)));
         (* mask = group_ids[group_id.as_int()] *)
         match group_ids1 !! pugi.as_int group_id with
         | Some present => mret (present, store1, group_ids1)
         | None =>
             mret (length store1, store1 ++ [cv.mkMat 0 0 []],
                   <[pugi.as_int group_id := length store1]> group_ids1)
         end);
    (* the points branch declares one more matrix, which it does not use *)
    _ ← (if String.eqb (pugi.name geometry) "points"
         then cv.Mat_create height width 0 ≫= fun _ => mret tt
         else mret tt);
    mret (Image.mkLocals (alter (masks_draw geometry) mask store1) group_ids1
            (Image.result_ st ++ [mask])).

(** The body of the loop over the images: [group_ids] starts empty for every
    image of the filename, [mats] goes on. *)
Definition masks_image (filename label : string) (image : pugi.xml_node)
    (acc : list cv.Mat * list nat) : result (list cv.Mat * list nat) :=
  if bool_decide (filename ≠ pugi.as_string (pugi.attribute image "name")) then mret acc
  else
    let width := pugi.as_int (pugi.attribute image "width") in
    let height := pugi.as_int (pugi.attribute image "height") in
    st ← for_each (pugi.children image) (masks_geometry height width label)
           (Image.mkLocals acc.1 ∅ acc.2);
    mret (Image.store st, Image.result_ st).

(** [masks(filename, label)] returns the vector of headers; the store gives
    their pixels. *)
Definition masks (g : t) (filename label : string) : result (list nat * list cv.Mat) :=
  acc ← for_each (pugi.children_named (m_annotations g) "image")
          (masks_image filename label) ([], []);
  mret (acc.2, acc.1).

End Masks.

End CVATMaskGenerator.

(** ** The pipeline *)

Section Pipeline.
Context (W : world) (Pf : platform).

Import Cxx.

(** The first loop of [write_masks_to_directory]: one directory per label.
    The result is the directories created, in order, and the file system
    after the loop, or the exception [create_directories] raised. *)
Fixpoint create_label_directories (output_directory : string) (labels : list string)
    (fs : filesystem W) : list string * result (filesystem W) :=
  match labels with
  | [] => ([], Returns fs)
  | l :: rest =>
      let label_dir := path.append output_directory l in
      if negb (fs_exists W fs label_dir) || negb (fs_is_directory W fs label_dir) then
        match fs_create_directories W fs label_dir with
        | Returns fs' =>
            let '(created, r) := create_label_directories output_directory rest fs' in
            (label_dir :: created, r)
        | Throws e => ([], Throws e)
        end
      else create_label_directories output_directory rest fs
  end.

(** The loop over the labels inside the task of one image: the calls of
    [imwrite] it makes, in order, and how the task ends.  What [imwrite]
    returns is not looked at. *)
Fixpoint write_labels (fs : filesystem W) (image : Image.t) (output_directory : string)
    (filename : string) (labels : list string) : list (string * cv.Mat) * result unit :=
  match labels with
  | [] => ([], Returns tt)
  | l :: rest =>
      match Image.mask_combined Pf image l with
      | Throws e => ([], Throws e)
      | Returns mat =>
          let file := path.append (path.append output_directory l) filename in
          match imwrite W fs file mat with
          | Throws e => ([(file, mat)], Throws e)
          | Returns _ =>
              let '(calls, r) := write_labels fs image output_directory filename rest in
              ((file, mat) :: calls, r)
          end
      end
  end.

(** The task launched for one image. *)
Definition task (fs : filesystem W) (image : Image.t) (output_directory : string)
    (labels : list string) : list (string * cv.Mat) * result unit :=
  let filename := path.replace_extension (Image.filename image) ".png" in
  write_labels fs image output_directory filename labels.

(** What a run of [write_masks_to_directory] did: the directories it
    created, and for every image, in the order the tasks were launched, the
    calls of [imwrite] of its task and what the future of the task holds. *)
Record run : Type := mkRun {
  created_directories : list string;
  futures : list (list (string * cv.Mat) * result unit)
}.

(** The tasks run in parallel and touch nothing in common; each is given
    here by what it does on its own.  [f.wait()] waits for a task and does
    not look at what its future holds. *)
Definition write_masks_to_directory (fs : filesystem W) (xml_file output_directory : string)
    : run * result unit :=
  let generator := CVATMaskGenerator.from_file W xml_file in
  let labels := CVATMaskGenerator.labels generator in
  match create_label_directories output_directory labels fs with
  | (created, Throws e) => (mkRun created [], Throws e)
  | (created, Returns fs') =>
      let futures :=
        (fun image => task fs' image output_directory labels)
          <$> CVATMaskGenerator.images generator in
      (mkRun created futures, Returns tt)
  end.

(** The command line as [CLI11_PARSE] leaves it: the exit code it returns
    with, and what it printed, when the arguments are refused (the document
    must be an existing file), or the two arguments. *)
Inductive command_line : Type :=
| cli_refused (exit_code : Z) (message : string)
| cli_parsed (cvat_file output_directory : string).

Record process_end : Type := mkEnd {
  exit_code : Z;
  cerr : string;
  done_ : option run
}.

Definition what (e : exception) : string :=
  match e with
  | cv_Exception w => w
  | filesystem_error w => w
  end.

Definition main (fs : filesystem W) (args : command_line) : process_end :=
  match args with
  | cli_refused code message => mkEnd code message None
  | cli_parsed cvat_file output_directory =>
      match write_masks_to_directory fs cvat_file output_directory with
      | (r, Throws e) => mkEnd 1 (what e) (Some r)
      | (r, Returns _) => mkEnd 0 EmptyString (Some r)
      end
  end.

End Pipeline.

(** The calls of [imwrite] of a run, task after task. *)
Definition emitted (r : run) : list (string * cv.Mat) := concat (fst <$> futures r).

(** ** Sample documents and a sample world *)

Module Sample.

Import Cxx pugi.

(** A platform whose curves cover nothing and whose stray [int] is 0. *)
Definition no_curves : cv.primitives :=
  cv.mkPrimitives unit tt (fun _ => tt)
    (fun _ _ _ _ _ => false) (fun _ _ _ _ _ _ => false)
    (fun _ _ _ _ _ _ _ _ _ => false).

Definition bare : platform := mkPlatform 0 no_curves.

Definition element (name_ : string) (attrs : list (string * string))
    (kids : list xml_node_struct) : xml_node_struct :=
  Node node_element name_ EmptyString attrs kids.

(** [<box label=.. group_id=.. xtl=.. ytl=.. xbr=.. ybr=../>] *)
Definition box (label : string) (group_id : option string) (xtl ytl xbr ybr : string)
    : xml_node_struct :=
  element "box"
    ([("label", label)] ++ from_option (fun g => [("group_id", g)]) [] group_id ++
     [("xtl", xtl); ("ytl", ytl); ("xbr", xbr); ("ybr", ybr)]) [].

(** [<polygon label=.. points=../>] *)
Definition polygon (label points : string) : xml_node_struct :=
  element "polygon" [("label", label); ("points", points)] [].

(** [<image name=.. width=.. height=..> ... </image>] *)
Definition image (name_ width height : string) (geometries : list xml_node_struct)
    : xml_node_struct :=
  element "image" [("id", "0"); ("name", name_); ("width", width); ("height", height)]
    geometries.

(** [<label><name>..</name></label>] *)
Definition label_declaration (name_ : string) : xml_node_struct :=
  element "label" [] [element "name" [] [Node node_pcdata EmptyString name_ [] []]].

(** A whole document: the catalog under [annotations/meta/task/labels], then
    the images. *)
Definition document (labels : list string) (images : list xml_node_struct) : xml_document :=
  Node node_document EmptyString EmptyString []
    [element "annotations" []
       (element "meta" []
          [element "task" [] [element "labels" [] (label_declaration <$> labels)]]
        :: images)].

(** A world with an in-memory directory list: [files] is what [load_file]
    finds, [sink] how [imwrite] ends. *)
Definition memory_world (files : string -> xml_parse_status * xml_document)
    (sink : string -> cv.Mat -> result bool) : world :=
  mkWorld files (list string)
    (fun fs p => bool_decide (p ∈ fs)) (fun fs p => bool_decide (p ∈ fs))
    (fun fs p => Returns (p :: fs))
    (fun _ p m => sink p m).

Definition one_file (doc : xml_document) : string -> xml_parse_status * xml_document :=
  fun _ => (status_ok, doc).

(** A file that exists and holds no XML: the loader reports the failure and
    leaves the empty tree. *)
Definition no_xml : string -> xml_parse_status * xml_document :=
  fun _ => (status_no_document_element, empty_document).

Definition sink_ok : string -> cv.Mat -> result bool := fun _ _ => Returns true.
Definition sink_false : string -> cv.Mat -> result bool := fun _ _ => Returns false.
Definition sink_throws : string -> cv.Mat -> result bool :=
  fun _ _ => Throws (cv_Exception "could not write the image").

(** Two boxes of one group and one box without a group, all labelled car. *)
Definition grouped_image : Image.t :=
  Some (image "a.jpg" "10" "10"
          [box "car" (Some "1") "2" "2" "5" "5";
           box "car" (Some "1") "6" "6" "8" "8";
           box "car" None "0" "0" "1" "1"]).

(** The box of the format example on a 10 x 10 image. *)
Definition box_2_2_5_5 : Geometry.t := Some (box "car" None "2" "2" "5" "5").

Definition canvas_10x10 : cv.Mat := cv.mkMat 10 10 (replicate 10 (replicate 10 0)).

(** The labels car and plate, one image with a car box over all of it. *)
Definition car_document : xml_document :=
  document ["car"; "plate"] [image "frame.jpg" "4" "2" [box "car" None "0" "0" "4" "2"]].

(** No catalog, one image. *)
Definition no_catalog_document : xml_document :=
  Node node_document EmptyString EmptyString []
    [element "annotations" [] [image "a.jpg" "2" "1" [box "car" None "0" "0" "1" "1"]]].

(** The polygon of the format example. *)
Definition polygon_10_20_30_40 : Geometry.t := Some (polygon "car" "10,20;30,40").

(** The label car declared twice. *)
Definition twice_car_document : xml_document :=
  document ["car"; "car"] [image "a.jpg" "2" "1" []].

End Sample.

(** ** The four statements of the specification that the program departs from

    Each is written here as the specification words it, to be compared with
    what the program does. *)

Module AsWritten.

Import Cxx Raster.

(** The number of partitions of a sequence of geometries: one per geometry
    without a group, one per group. *)
Fixpoint partition_count (seen : list Z) (geos : list Geometry.t) : nat :=
  match geos with
  | [] => 0
  | g :: rest =>
      match Geometry.group g with
      | None => S (partition_count seen rest)
      | Some id =>
          if bool_decide (id ∈ seen) then partition_count seen rest
          else S (partition_count (id :: seen) rest)
      end
  end.

(** Grouped mode returns one mask per partition. *)
Definition one_mask_per_partition (Pf : platform) (img : Image.t) (label : string) : Prop :=
  forall headers store,
    Image.mask Pf img label = Returns (headers, store) ->
    length headers = partition_count [] (with_label label (pugi.children img)).

(** A box sets the inclusive rectangle [[xtl, xbr] x [ytl, ybr]] and nothing
    else. *)
Definition box_fills_inclusive (Pf : platform) (g : Geometry.t) (m : cv.Mat) : Prop :=
  let xtl := pugi.as_int (pugi.attribute g "xtl") in
  let ytl := pugi.as_int (pugi.attribute g "ytl") in
  let xbr := pugi.as_int (pugi.attribute g "xbr") in
  let ybr := pugi.as_int (pugi.attribute g "ybr") in
  forall (px py : nat) (v : Z),
    cv.at_ m px py = Some v ->
    cv.at_ (Geometry.draw_mask Pf g m) px py
    = Some (if (xtl <=? Z.of_nat px) && (Z.of_nat px <=? xbr) &&
               (ytl <=? Z.of_nat py) && (Z.of_nat py <=? ybr)
            then 255 else v).

(** The pipeline emits exactly one mask for every label of the catalog and
    every image. *)
Definition one_mask_per_pair (W : world) (Pf : platform) (fs : filesystem W)
    (xml_file output_directory : string) : Prop :=
  let generator := CVATMaskGenerator.from_file W xml_file in
  forall l image,
    l ∈ CVATMaskGenerator.labels generator ->
    image ∈ CVATMaskGenerator.images generator ->
    length (filter (fun call : string * cv.Mat =>
                      call.1 = path.append (path.append output_directory l)
                                 (path.replace_extension (Image.filename image) ".png"))
              (emitted (write_masks_to_directory W Pf fs xml_file output_directory).1))
    = 1%nat.

(** The catalog holds every label name at most once. *)
Definition catalog_deduplicated (g : CVATMaskGenerator.t) : Prop :=
  NoDup (CVATMaskGenerator.labels g).

End AsWritten.

(** ** Notions used to state the further properties *)

(** The five kinds of geometry [draw_mask] knows. *)
Definition known_kind (name_ : string) : bool :=
  String.eqb name_ "polygon" || String.eqb name_ "box" || String.eqb name_ "points"
  || String.eqb name_ "polyline" || String.eqb name_ "ellipse".

#[global] Instance Point_eq_dec : EqDecision cv.Point.
Proof. solve_decision. Defined.

Module ByLabel.

Import Cxx Raster.

(** The label under whose buffer [masks] draws [g]: the label of the first
    geometry of the image with the group of [g], its own without a group. *)
Definition owner (geos : list Geometry.t) (g : Geometry.t) : string :=
  match group_key g with
  | Some k => match filter (fun g' => group_key g' = Some k) geos with
              | first :: _ => Geometry.label first
              | [] => Geometry.label g
              end
  | None => Geometry.label g
  end.

(** The geometries drawn on the buffer of a label. *)
Definition drawn_under (geos : list Geometry.t) (label : string) : list Geometry.t :=
  filter (fun g => owner geos g = label) geos.

(** What holds of the locals of [masks] after the geometries [done] were
    drawn on buffers that start as [m0]. *)
Record masks_invariant (Pf : platform) (m0 : cv.Mat) (done : list Geometry.t)
    (st : Image.masks_locals) : Prop := mkMasksInvariant {
  inv_buffer : forall l h,
    Image.masks_result st !! l = Some h ->
    Image.masks_store st !! h = Some (draw_all Pf (drawn_under done l) m0);
  inv_labelled : forall l h,
    Image.masks_result st !! l = Some h -> Exists (fun g => Geometry.label g = l) done;
  inv_unlabelled : forall l,
    Image.masks_result st !! l = None -> Forall (fun g => Geometry.label g <> l) done;
  inv_distinct : forall l l' h,
    Image.masks_result st !! l = Some h -> Image.masks_result st !! l' = Some h -> l = l';
  inv_group : forall k h,
    Image.masks_groups st !! k = Some h ->
    exists first rest,
      filter (fun g => group_key g = Some k) done = first :: rest /\
      Image.masks_result st !! Geometry.label first = Some h;
  inv_no_group : forall k,
    Image.masks_groups st !! k = None -> Forall (fun g => group_key g <> Some k) done
}.

End ByLabel.

(** ** Further sample documents *)

Module Cases.

Import Cxx pugi.

(** [<points label=.. points=../>] *)
Definition points (label pts : string) : xml_node_struct :=
  Sample.element "points" [("label", label); ("points", pts)] [].

(** Coordinates with fractions, as the annotation tool writes them. *)
Definition fraction_polygon : Geometry.t :=
  Some (Sample.polygon "car" "1.5,2.25;-3.75,4").

Definition two_points : Geometry.t := Some (points "car" "1,1;3,2").

(** A box without width. *)
Definition flat_box : Geometry.t := Some (Sample.box "car" None "5" "5" "5" "9").

(** A box that reaches beyond the 10 x 10 canvas on all sides. *)
Definition wide_box : Geometry.t := Some (Sample.box "car" None "-5" "-5" "20" "20").

(** The geometries of [Sample.grouped_image]. *)
Definition grouped_boxes : list xml_node_struct :=
  [Sample.box "car" (Some "1") "2" "2" "5" "5";
   Sample.box "car" (Some "1") "6" "6" "8" "8";
   Sample.box "car" None "0" "0" "1" "1"].

(** [Sample.grouped_image] with a tag and a box of another label among its
    geometries. *)
Definition noisy_image : Image.t :=
  Some (Sample.image "a.jpg" "10" "10"
          (Sample.element "tag" [("label", "car")] []
           :: Sample.box "plate" None "0" "0" "9" "9" :: grouped_boxes)).

(** A plate in the group of a car, and a plate of its own. *)
Definition shared_group_image : Image.t :=
  Some (Sample.image "a.jpg" "4" "2"
          [Sample.box "car" (Some "1") "0" "0" "1" "1";
           Sample.box "plate" (Some "1") "2" "0" "3" "1";
           Sample.box "plate" None "3" "1" "4" "2"]).

Definition canvas_2x4 : cv.Mat := cv.mkMat 2 4 (replicate 2 (replicate 4 0)).

(** A car and a plate, no groups. *)
Definition two_label_image : Image.t :=
  Some (Sample.image "a.jpg" "4" "2"
          [Sample.box "car" None "0" "0" "1" "1";
           Sample.box "plate" None "2" "0" "3" "1"]).

(** [Sample.grouped_image] in a document. *)
Definition grouped_document : xml_document :=
  Sample.document ["car"] [Sample.image "a.jpg" "10" "10" grouped_boxes].

(** A height that does not fit an [int]. *)
Definition huge_image : Image.t :=
  Some (Sample.image "a.jpg" "10" "3000000000" [Sample.box "car" None "0" "0" "1" "1"]).

(** The image of [Sample.car_document]. *)
Definition frame_image : Image.t :=
  Some (Sample.image "frame.jpg" "4" "2" [Sample.box "car" None "0" "0" "4" "2"]).

End Cases.

(** * Properties *)

(** ** The coordinate parser *)

Module ParserFacts.

Import Cxx CoordinateText.

Lemma c_str_string_of_uint d :
  c_str (NilEmpty.string_of_uint d) = uint_chars d.
Proof. induction d; simpl; unfold c_str in *; simpl; congruence. Qed.

Lemma uint_chars_digits d : Forall (fun a => is_digit a = true) (uint_chars d).
Proof. induction d; simpl; constructor; done. Qed.

Lemma leading_digits_all l :
  Forall (fun a => is_digit a = true) l -> leading_digits l = l.
Proof. induction 1 as [|a l Ha _ IH]; simpl; [done|]. by rewrite Ha, IH. Qed.

Lemma fold_digits_acc d (acc : positive) :
  fold_left (fun acc d => 10 * acc + digit_value d) (uint_chars d) (Z.pos acc)
  = Z.pos (Pos.of_uint_acc d acc).
Proof.
  revert acc. induction d; intros acc; simpl; [done|..];
    (etrans; [|apply IHd]); f_equal.
  all: match goal with |- context [digit_value ?c] =>
         let v := eval vm_compute in (digit_value c) in
         change (digit_value c) with v end.
  all: lia.
Qed.

Lemma decimal_value_uint d :
  decimal_value (uint_chars d) = Z.of_N (Pos.of_uint d).
Proof.
  unfold decimal_value.
  induction d; simpl; [done| exact IHd |..];
    (etrans; [|apply fold_digits_acc]); f_equal.
Qed.


Lemma show_int_shape z :
  exists (negative : bool) (d : Decimal.uint),
    show_int z = (if negative then ["-"%char] else []) ++ uint_chars d
    /\ d <> Decimal.Nil
    /\ z = (if negative then - Z.of_N (Pos.of_uint d) else Z.of_N (Pos.of_uint d)).
Proof.
  destruct z as [|p|p]; unfold show_int; simpl.
  - exists false, (Decimal.D0 Decimal.Nil). done.
  - exists false, (Pos.to_uint p). split_and!.
    + pose proof (DecimalPos.Unsigned.to_uint_nonnil p).
      unfold NilZero.string_of_uint.
      destruct (Pos.to_uint p); try done; apply c_str_string_of_uint.
    + apply DecimalPos.Unsigned.to_uint_nonnil.
    + by rewrite DecimalPos.Unsigned.of_to.
  - exists true, (Pos.to_uint p). split_and!.
    + pose proof (DecimalPos.Unsigned.to_uint_nonnil p).
      unfold NilZero.string_of_uint. unfold c_str. simpl. f_equal.
      destruct (Pos.to_uint p); try done; apply c_str_string_of_uint.
    + apply DecimalPos.Unsigned.to_uint_nonnil.
    + by rewrite DecimalPos.Unsigned.of_to.
Qed.

Lemma from_chars_digits ds (value : Z) :
  ds <> [] -> Forall (fun a => is_digit a = true) ds ->
  in_int (decimal_value ds) ->
  from_chars ds value = decimal_value ds.
Proof.
  intros Hne Hd Hin. unfold from_chars.
  destruct ds as [|a ds]; [done|].
  assert (a <> "-"%char) as Ha.
  { intros ->. by inversion Hd. }
  assert (leading_digits (a :: ds) = a :: ds) as Hl by by apply leading_digits_all.
  assert (in_intb (decimal_value (a :: ds)) = true) as Hb.
  { unfold in_intb, in_int in *. apply andb_true_intro; split; apply Z.leb_le; lia. }
  destruct a as [[] [] [] [] [] [] [] []]; try done; rewrite Hl, Hb; done.
Qed.

Lemma from_chars_minus_digits ds (value : Z) :
  ds <> [] -> Forall (fun a => is_digit a = true) ds ->
  in_int (- decimal_value ds) ->
  from_chars ("-"%char :: ds) value = - decimal_value ds.
Proof.
  intros Hne Hd Hin. unfold from_chars.
  rewrite (leading_digits_all ds Hd).
  assert (in_intb (- decimal_value ds) = true) as Hb.
  { unfold in_intb, in_int in *. apply andb_true_intro; split; apply Z.leb_le; lia. }
  destruct ds; [done|]. by rewrite Hb.
Qed.

Lemma uint_chars_nonnil d : d <> Decimal.Nil -> uint_chars d <> [].
Proof. by destruct d. Qed.

Lemma from_chars_show_int z value : in_int z -> from_chars (show_int z) value = z.
Proof.
  intros Hz. destruct (show_int_shape z) as (neg & d & -> & Hd & Hv).
  destruct neg; simpl.
  - rewrite from_chars_minus_digits; rewrite ?decimal_value_uint;
      auto using uint_chars_nonnil, uint_chars_digits. by rewrite <- Hv.
  - rewrite from_chars_digits; rewrite ?decimal_value_uint;
      auto using uint_chars_nonnil, uint_chars_digits. by rewrite <- Hv.
Qed.

Lemma show_int_plain z c : is_digit c = false -> c <> "-"%char -> plain c (show_int z).
Proof.
  intros Hc Hm. destruct (show_int_shape z) as (neg & d & -> & _ & _).
  apply Forall_app; split.
  - destruct neg; repeat constructor. congruence.
  - eapply Forall_impl; [apply uint_chars_digits|]. simpl. intros a Ha ->. congruence.
Qed.

Lemma show_int_nonempty z : show_int z <> [].
Proof.
  destruct (show_int_shape z) as (neg & d & -> & Hd & _).
  destruct neg; [done|]. simpl. by apply uint_chars_nonnil.
Qed.

Lemma index_of_plain_app c l r :
  plain c l -> index_of c (l ++ r) = Nat.add (length l) <$> index_of c r.
Proof.
  induction 1 as [|a l Ha _ IH]; simpl.
  - by destruct (index_of c r).
  - destruct (Ascii.eqb_spec a c); [done|].
    rewrite IH. by destruct (index_of c r).
Qed.

Lemma index_of_plain c l : plain c l -> index_of c l = None.
Proof.
  intros H. rewrite <- (app_nil_r l). by rewrite index_of_plain_app.
Qed.

Lemma index_of_head c r : index_of c (c :: r) = Some 0%nat.
Proof. simpl. by rewrite Ascii.eqb_refl. Qed.

Section ParserFacts.
Context (Pf : platform).

Lemma parse_points_from_eq s cur :
  Geometry.parse_points_from Pf s cur =
  if decide (cur < length s)%nat
  then Geometry.point_at Pf s cur
         :: Geometry.parse_points_from Pf s (Geometry.y_coord_end s cur + 1)
  else [].
Proof.
  funelim (Geometry.parse_points_from Pf s cur); by rewrite Heq.
Qed.

Lemma strchr_shift pre s cur c :
  strchr (pre ++ s) (length pre + cur) c = Nat.add (length pre) <$> strchr s cur c.
Proof.
  unfold strchr. rewrite drop_app_add.
  destruct (index_of c (drop cur s)); simpl; f_equal; lia.
Qed.

Lemma x_coord_end_shift pre s cur :
  Geometry.x_coord_end (pre ++ s) (length pre + cur)
  = (length pre + Geometry.x_coord_end s cur)%nat.
Proof.
  unfold Geometry.x_coord_end. rewrite strchr_shift, length_app.
  by destruct (strchr s cur _).
Qed.

Lemma y_coord_end_shift pre s cur :
  Geometry.y_coord_end (pre ++ s) (length pre + cur)
  = (length pre + Geometry.y_coord_end s cur)%nat.
Proof.
  unfold Geometry.y_coord_end. rewrite strchr_shift, length_app.
  by destruct (strchr s cur _).
Qed.

Lemma chars_between_shift pre s a b :
  chars_between (pre ++ s) (length pre + a) (length pre + b) = chars_between s a b.
Proof.
  unfold chars_between. rewrite drop_app_add. f_equal. lia.
Qed.

Lemma point_at_shift pre s cur :
  Geometry.point_at Pf (pre ++ s) (length pre + cur) = Geometry.point_at Pf s cur.
Proof.
  unfold Geometry.point_at.
  rewrite x_coord_end_shift, y_coord_end_shift.
  rewrite !chars_between_shift.
  replace (length pre + Geometry.x_coord_end s cur + 1)%nat
    with (length pre + (Geometry.x_coord_end s cur + 1))%nat by lia.
  by rewrite chars_between_shift.
Qed.

Lemma parse_points_from_shift pre s cur :
  Geometry.parse_points_from Pf (pre ++ s) (length pre + cur)
  = Geometry.parse_points_from Pf s cur.
Proof.
  funelim (Geometry.parse_points_from Pf s cur).
  - rewrite parse_points_from_eq. rewrite length_app.
    destruct (decide (length pre + cur < length pre + length s)%nat); [|lia].
    rewrite point_at_shift, y_coord_end_shift. f_equal.
    rewrite <- Nat.add_assoc. apply H.
  - rewrite parse_points_from_eq. rewrite length_app.
    destruct (decide (length pre + cur < length pre + length s)%nat); [lia|done].
Qed.

Lemma parse_points_from_end s cur :
  (length s <= cur)%nat -> Geometry.parse_points_from Pf s cur = [].
Proof.
  intros H. rewrite parse_points_from_eq. case_decide; [lia|done].
Qed.

(** Reading one point at the front of a text: [X,Y] followed by the end or
    by a semicolon. *)
Lemma coord_ends X Y tail :
  plain ","%char X -> plain ";"%char X -> plain ";"%char Y ->
  tail = [] \/ (exists rest, tail = ";"%char :: rest) ->
  Geometry.x_coord_end (X ++ ","%char :: Y ++ tail) 0 = length X /\
  Geometry.y_coord_end (X ++ ","%char :: Y ++ tail) 0 = (length X + 1 + length Y)%nat.
Proof.
  intros HcX HsX HsY Htail. split.
  - unfold Geometry.x_coord_end, strchr. rewrite drop_0.
    rewrite index_of_plain_app, index_of_head by done. simpl. lia.
  - unfold Geometry.y_coord_end, strchr. rewrite drop_0.
    rewrite index_of_plain_app by done. simpl.
    rewrite index_of_plain_app by done.
    destruct Htail as [->|[rest ->]].
    + simpl. rewrite length_app. simpl. rewrite length_app. simpl. lia.
    + rewrite index_of_head. simpl. lia.
Qed.

Lemma point_at_front X Y tail x y :
  plain ","%char X -> plain ";"%char X -> plain ";"%char Y ->
  tail = [] \/ (exists rest, tail = ";"%char :: rest) ->
  (forall v, from_chars X v = x) -> (forall v, from_chars Y v = y) ->
  Geometry.point_at Pf (X ++ ","%char :: Y ++ tail) 0 = cv.mkPoint x y.
Proof.
  intros HcX HsX HsY Htail Hx Hy.
  destruct (coord_ends X Y tail HcX HsX HsY Htail) as [Hxe Hye].
  unfold Geometry.point_at. rewrite Hxe, Hye.
  unfold chars_between. rewrite drop_0, Nat.sub_0_r, take_app_length.
  rewrite Hx. f_equal.
  replace (length X + 1 + length Y - (length X + 1))%nat with (length Y) by lia.
  replace (X ++ ","%char :: Y ++ tail) with ((X ++ [","%char]) ++ Y ++ tail)
    by by rewrite <- app_assoc.
  replace (length X + 1)%nat with (length (X ++ [","%char]))
    by (rewrite length_app; simpl; lia).
  rewrite drop_app_length, take_app_length. apply Hy.
Qed.

End ParserFacts.

Section ParserFacts2.
Context (Pf : platform).

Lemma parse_point_then p tail :
  in_int_point p ->
  tail = [] \/ (exists rest, tail = ";"%char :: rest) ->
  Geometry.parse_points_from Pf (show_point p ++ tail) 0
  = p :: Geometry.parse_points_from Pf (drop 1 tail) 0.
Proof.
  intros [Hx Hy] Htail. destruct p as [x y]; simpl in *.
  unfold show_point; simpl. rewrite <- app_assoc; simpl.
  pose proof (show_int_plain x ","%char eq_refl ltac:(done)) as HcX.
  pose proof (show_int_plain x ";"%char eq_refl ltac:(done)) as HsX.
  pose proof (show_int_plain y ";"%char eq_refl ltac:(done)) as HsY.
  rewrite parse_points_from_eq.
  destruct (decide (0 < length (show_int x ++ ","%char :: show_int y ++ tail))%nat) as [_|Hn].
  2:{ rewrite length_app in Hn. simpl in Hn. lia. }
  rewrite (point_at_front Pf _ _ _ x y); auto using from_chars_show_int.
  f_equal.
  destruct (coord_ends _ _ _ HcX HsX HsY Htail) as [_ ->].
  destruct Htail as [->|[rest ->]]; simpl.
  - rewrite (parse_points_from_end Pf []) by (simpl; lia).
    apply parse_points_from_end. rewrite app_nil_r, length_app. simpl. lia.
  - rewrite drop_0.
    replace (show_int x ++ ","%char :: show_int y ++ ";"%char :: rest)
      with ((show_int x ++ ","%char :: show_int y ++ [";"%char]) ++ rest)
      by (rewrite <- !app_assoc; simpl; by rewrite <- app_assoc).
    replace (length (show_int x) + 1 + length (show_int y) + 1)%nat
      with (length (show_int x ++ ","%char :: show_int y ++ [";"%char]) + 0)%nat
      by (rewrite length_app; simpl; rewrite length_app; simpl; lia).
    apply parse_points_from_shift.
Qed.

Lemma parse_show_points pts trail :
  Forall in_int_point pts ->
  trail = [] \/ (pts <> [] /\ trail = [";"%char]) ->
  Geometry.parse_points_from Pf (show_points pts ++ trail) 0 = pts.
Proof.
  intros Hpts. revert trail. induction Hpts as [|p rest Hp Hrest IH]; intros trail Htrail.
  - destruct Htrail as [->|[? _]]; [|done]. simpl.
    apply parse_points_from_end. simpl. lia.
  - destruct rest as [|q rest].
    + simpl. rewrite parse_point_then; [|done|].
      * f_equal. destruct Htrail as [->|[_ ->]]; simpl; apply parse_points_from_end; simpl; lia.
      * destruct Htrail as [->|[_ ->]]; eauto.
    + change (show_points (p :: q :: rest)) with (show_point p ++ ";"%char :: show_points (q :: rest)).
      rewrite <- app_assoc. simpl.
      rewrite parse_point_then; [|done|eauto]. simpl. rewrite drop_0.
      f_equal. apply IH. destruct Htrail as [->|[_ ->]]; [by left|right; done].
Qed.

Lemma index_of_lt c l i : index_of c l = Some i -> (i < length l)%nat.
Proof.
  revert i. induction l as [|a l IH]; intros i; simpl; [done|].
  destruct (Ascii.eqb a c).
  - intros [= <-]. lia.
  - destruct (index_of c l) as [j|]; simpl; [|done].
    intros [= <-]. specialize (IH j eq_refl). lia.
Qed.

Lemma strchr_bounds s cur c i :
  strchr s cur c = Some i -> (cur <= i < length s)%nat.
Proof.
  unfold strchr. destruct (index_of c (drop cur s)) as [j|] eqn:E; simpl; [|done].
  intros [= <-]. apply index_of_lt in E. rewrite length_drop in E. lia.
Qed.

Lemma y_coord_end_bounds s cur :
  (cur <= length s -> cur <= Geometry.y_coord_end s cur <= length s)%nat.
Proof.
  unfold Geometry.y_coord_end. destruct (strchr s cur ";"%char) as [i|] eqn:E; simpl.
  - apply strchr_bounds in E. lia.
  - lia.
Qed.

Lemma parse_points_from_length s cur :
  (length (Geometry.parse_points_from Pf s cur) <= length s - cur)%nat.
Proof.
  funelim (Geometry.parse_points_from Pf s cur); simpl; [|lia].
  pose proof (y_coord_end_bounds s cur). lia.
Qed.

Lemma parse_points_copies s cur :
  CVATMaskGenerator.parse_points_from Pf s cur = Geometry.parse_points_from Pf s cur.
Proof.
  funelim (CVATMaskGenerator.parse_points_from Pf s cur).
  - rewrite parse_points_from_eq. destruct (decide (cur < length s)%nat); [|lia].
    by f_equal.
  - rewrite parse_points_from_eq. destruct (decide (cur < length s)%nat); [lia|done].
Qed.

End ParserFacts2.

End ParserFacts.

(** ** Matrices and drawing *)

Module RasterFacts.

Import Cxx Raster.

Lemma at_paint inside c m px py :
  cv.at_ (cv.paint inside c m) px py =
  (fun v => if inside (Z.of_nat px) (Z.of_nat py) then cv.saturate_uchar c else v)
    <$> cv.at_ m px py.
Proof.
  unfold cv.at_, cv.paint; simpl. rewrite list_lookup_imap.
  destruct (cv.data m !! py) as [row|]; simpl; [|done].
  by rewrite list_lookup_imap.
Qed.

Lemma paint_ext i1 i2 c m :
  (forall px py, i1 px py = i2 px py) -> cv.paint i1 c m = cv.paint i2 c m.
Proof.
  intros H. unfold cv.paint. f_equal.
  apply imap_ext; intros py row _. apply imap_ext; intros px v _. by rewrite H.
Qed.

Lemma imap_id {A} (l : list A) : imap (fun _ a => a) l = l.
Proof. apply list_eq; intros i. rewrite list_lookup_imap. by destruct (l !! i). Qed.

Lemma paint_nothing inside c m :
  (forall px py, inside px py = false) -> cv.paint inside c m = m.
Proof.
  intros H. destruct m as [r k d]. unfold cv.paint; simpl. f_equal.
  rewrite <- (imap_id d) at 2. apply imap_ext; intros py row _.
  rewrite <- (imap_id row) at 2. apply imap_ext; intros px v _. by rewrite H.
Qed.

Lemma paint_paint i1 i2 c m :
  cv.paint i1 c (cv.paint i2 c m) = cv.paint (fun px py => i1 px py || i2 px py) c m.
Proof.
  unfold cv.paint; simpl. f_equal.
  apply list_eq; intros py. rewrite !list_lookup_imap.
  destruct (cv.data m !! py) as [row|]; simpl; [|done]. f_equal.
  apply list_eq; intros px. rewrite !list_lookup_imap.
  destruct (row !! px) as [v|]; simpl; [|done]. f_equal.
  by destruct (i1 _ _), (i2 _ _).
Qed.

Lemma paint_well_formed inside c m : well_formed m -> well_formed (cv.paint inside c m).
Proof.
  intros (Hr & Hc & Hl & Hrows). unfold well_formed, cv.paint; simpl.
  split_and!; try done.
  - by rewrite length_imap.
  - apply Forall_forall. intros row [py [row' [-> Hrow]]]%elem_of_lookup_imap.
    rewrite length_imap. rewrite Forall_forall in Hrows. apply Hrows.
    eapply list_elem_of_lookup_2; eauto.
Qed.

Lemma paint_binary inside m : binary m -> binary (cv.paint inside 255 m).
Proof.
  unfold binary, cv.paint; simpl. intros H.
  apply Forall_forall. intros row [py [row' [-> Hrow]]]%elem_of_lookup_imap.
  apply Forall_forall. intros v [px [v' [-> Hv]]]%elem_of_lookup_imap.
  destruct (inside _ _); [by right|].
  rewrite Forall_forall in H. specialize (H row' ltac:(eapply list_elem_of_lookup_2; eauto)).
  rewrite Forall_forall in H. apply H. eapply list_elem_of_lookup_2; eauto.
Qed.

Lemma at_well_formed m px py :
  well_formed m ->
  is_Some (cv.at_ m px py) <-> (Z.of_nat px < cv.cols m /\ Z.of_nat py < cv.rows m).
Proof.
  intros (Hr & Hc & Hl & Hrows). unfold cv.at_. split.
  - intros [v Hv]. destruct (cv.data m !! py) as [row|] eqn:E; simpl in Hv; [|done].
    pose proof (lookup_lt_Some _ _ _ E). pose proof (lookup_lt_Some _ _ _ Hv).
    rewrite Forall_forall in Hrows.
    specialize (Hrows row ltac:(eapply list_elem_of_lookup_2; eauto)). lia.
  - intros [Hx Hy].
    destruct (lookup_lt_is_Some_2 (cv.data m) py ltac:(lia)) as [row E].
    rewrite E; simpl. apply lookup_lt_is_Some_2.
    rewrite Forall_forall in Hrows.
    specialize (Hrows row ltac:(eapply list_elem_of_lookup_2; eauto)). lia.
Qed.

Lemma Mat_create_ok r c s m :
  cv.Mat_create r c s = Returns m ->
  well_formed m /\ cv.rows m = r /\ cv.cols m = c /\
  forall px py v, cv.at_ m px py = Some v -> v = cv.saturate_uchar s.
Proof.
  unfold cv.Mat_create. destruct (_ || _) eqn:E; [done|]. intros [= <-].
  apply orb_false_elim in E as [Hr Hc]. apply Z.ltb_ge in Hr, Hc.
  split_and!; try done.
  - unfold well_formed; simpl. split_and!; try done.
    + by rewrite length_replicate.
    + apply Forall_replicate. by rewrite length_replicate.
  - intros px py v. unfold cv.at_; simpl. intros H.
    destruct (replicate _ _ !! py) as [row|] eqn:Hrow; simpl in H; [|done].
    apply lookup_replicate in Hrow as [-> _].
    by apply lookup_replicate in H as [-> _].
Qed.

Lemma rectangle_paint img rec color :
  cv.rectangle img rec color = cv.paint (rect_covers (cv.rows img) (cv.cols img) rec) color img.
Proof.
  unfold cv.rectangle, rect_covers.
  destruct (cv.Rect_empty _) eqn:E; simpl.
  - symmetry. by apply paint_nothing.
  - unfold cv.rectangle_pts. apply paint_ext. intros px py. simpl.
    repeat f_equal; lia.
Qed.

Lemma circles_paint pts img :
  fold_left (fun img p => cv.circle_radius0 img p 255) pts img
  = cv.paint (points_cover pts) 255 img.
Proof.
  revert img. induction pts as [|p pts IH]; intros img; simpl.
  - symmetry. by apply paint_nothing.
  - rewrite IH. unfold cv.circle_radius0. rewrite paint_paint.
    apply paint_ext. intros px py. unfold points_cover; simpl. apply orb_comm.
Qed.

Section Drawing.
Context (Pf : platform).

Lemma draw_mask_paint g m :
  Geometry.draw_mask Pf g m = cv.paint (covered Pf g (cv.rows m) (cv.cols m)) 255 m.
Proof.
  unfold Geometry.draw_mask, covered.
  repeat (destruct (String.eqb _ _); [first [ done | apply rectangle_paint | apply circles_paint ]|]).
  symmetry. by apply paint_nothing.
Qed.

Lemma draw_mask_rows g m : cv.rows (Geometry.draw_mask Pf g m) = cv.rows m.
Proof. by rewrite draw_mask_paint. Qed.

Lemma draw_mask_cols g m : cv.cols (Geometry.draw_mask Pf g m) = cv.cols m.
Proof. by rewrite draw_mask_paint. Qed.

Lemma draw_all_paint geos m :
  draw_all Pf geos m
  = cv.paint (fun px py => existsb (fun g => covered Pf g (cv.rows m) (cv.cols m) px py) geos) 255 m.
Proof.
  unfold draw_all. revert m. induction geos as [|g geos IH]; intros m; simpl.
  - symmetry. by apply paint_nothing.
  - rewrite IH, draw_mask_rows, draw_mask_cols, draw_mask_paint, paint_paint.
    apply paint_ext. intros px py. apply orb_comm.
Qed.

Lemma draw_all_perm geos geos' m :
  geos ≡ₚ geos' -> draw_all Pf geos m = draw_all Pf geos' m.
Proof.
  intros Hp. rewrite !draw_all_paint. apply paint_ext. intros px py.
  apply eq_true_iff_eq. rewrite !existsb_exists.
  split; intros (g & Hin & Hc); exists g; split; try done.
  - apply list_elem_of_In. rewrite <- Hp. by apply list_elem_of_In.
  - apply list_elem_of_In. rewrite Hp. by apply list_elem_of_In.
Qed.

End Drawing.

Lemma to_int_id z : in_int z -> to_int z = z.
Proof.
  unfold in_int, to_int, INT_MIN, INT_MAX. intros H.
  rewrite Z.mod_small; lia.
Qed.

Lemma rect_covers_spec rows cols rx ry rw rh px py :
  0 <= px < cols -> 0 <= py < rows ->
  rect_covers rows cols (cv.mkRect rx ry rw rh) px py
  = (rx <=? px) && (px <? rx + rw) && (ry <=? py) && (py <? ry + rh).
Proof.
  intros Hx Hy. unfold rect_covers, cv.Rect_and. simpl.
  set (w := Z.min (rx + rw) (-1 + (cols + 2)) - Z.max rx (-1)).
  set (h := Z.min (ry + rh) (-1 + (rows + 2)) - Z.max ry (-1)).
  apply eq_true_iff_eq.
  destruct (Z.leb_spec w 0) as [Hw|Hw]; simpl.
  - rewrite !andb_true_iff, !Z.leb_le, !Z.ltb_lt. split; [done|]. intros ?. exfalso. lia.
  - destruct (Z.leb_spec h 0) as [Hh|Hh]; simpl.
    + rewrite !andb_true_iff, !Z.leb_le, !Z.ltb_lt. split; [done|]. intros ?. exfalso. lia.
    + unfold cv.Rect_empty; simpl.
      destruct (Z.leb_spec w 0); [lia|]. destruct (Z.leb_spec h 0); [lia|]. simpl.
      rewrite !andb_true_iff, !Z.leb_le, !Z.ltb_lt. lia.
Qed.

End RasterFacts.

(** ** The grouped masks *)

Module MaskFacts.

Import Cxx Raster RasterFacts.

Section MaskFacts.
Context (Pf : platform).

Lemma for_each_skip {A S : Type} (P : A -> Prop) `{!forall a, Decision (P a)}
    (body : A -> S -> result S) (l : list A) (s : S) :
  (forall a s, ~ P a -> body a s = Returns s) ->
  for_each l body s = for_each (filter P l) body s.
Proof.
  intros Hskip. revert s. induction l as [|a l IH]; intros s; simpl; [done|].
  rewrite filter_cons. destruct (decide (P a)) as [Ha|Ha]; simpl.
  - destruct (body a s); [apply IH|done].
  - rewrite Hskip by done. apply IH.
Qed.

Lemma draw_all_app l1 l2 m : draw_all Pf (l1 ++ l2) m = draw_all Pf l2 (draw_all Pf l1 m).
Proof. unfold draw_all. apply fold_left_app. Qed.

Lemma partition_of_snoc_other done g g' :
  group_key g' <> group_key g \/ group_key g = None ->
  partition_of (done ++ [g']) g = partition_of done g.
Proof.
  intros H. unfold partition_of. destruct (group_key g) as [k|] eqn:E; [|done].
  rewrite filter_app, filter_cons, filter_nil.
  destruct (decide (group_key g' = Some k)) as [Hk|Hk]; simpl.
  - destruct H; congruence.
  - apply app_nil_r.
Qed.

Lemma partition_of_snoc_same done g g' k :
  group_key g = Some k -> group_key g' = Some k ->
  partition_of (done ++ [g']) g = partition_of done g ++ [g'].
Proof.
  intros E E'. unfold partition_of. rewrite E.
  rewrite filter_app, filter_cons, filter_nil.
  by rewrite decide_True.
Qed.

(** The state after one more geometry of the label. *)
Lemma mask_body_returns img label m0 g st :
  Image.empty_mask img = Returns m0 ->
  Geometry.label g = label ->
  exists mat groups1,
    Image.mask_body Pf img label g st
    = Returns (Image.mkLocals
                 (alter (Geometry.draw_mask Pf g) mat (Image.store st ++ [m0]))
                 groups1 (Image.result_ st ++ [mat])) /\
    match group_key g with
    | None => mat = length (Image.store st) /\ groups1 = Image.groups st
    | Some k =>
        match Image.groups st !! k with
        | Some present => mat = present /\ groups1 = Image.groups st
        | None => mat = length (Image.store st) /\ groups1 = <[k := length (Image.store st)]> (Image.groups st)
        end
    end.
Proof.
  intros Hm0 Hl. unfold Image.mask_body. rewrite bool_decide_false by (intros ?; done).
  rewrite Hm0. simpl. unfold group_key.
  destruct (Geometry.group g) as [k|]; simpl.
  - destruct (Image.groups st !! to_int k); simpl; eauto.
  - eauto.
Qed.

Lemma store_step_other (f : cv.Mat -> cv.Mat) mat (store : list cv.Mat) m0 h x :
  store !! h = Some x -> h <> mat -> alter f mat (store ++ [m0]) !! h = Some x.
Proof.
  intros Hx Hne. rewrite list_lookup_alter_ne by done. by apply lookup_app_l_Some.
Qed.

Lemma store_step_fresh (f : cv.Mat -> cv.Mat) (store : list cv.Mat) m0 :
  alter f (length store) (store ++ [m0]) !! length store = Some (f m0).
Proof.
  rewrite list_lookup_alter_eq, lookup_app_r, Nat.sub_diag by lia. done.
Qed.

Lemma store_step_present (f : cv.Mat -> cv.Mat) (store : list cv.Mat) m0 h x :
  store !! h = Some x -> alter f h (store ++ [m0]) !! h = Some (f x).
Proof.
  intros Hx. rewrite list_lookup_alter_eq. by rewrite (lookup_app_l_Some _ _ _ _ Hx).
Qed.

Lemma filter_key_snoc_other done g k :
  group_key g <> Some k ->
  filter (fun g' => group_key g' = Some k) (done ++ [g])
  = filter (fun g' => group_key g' = Some k) done.
Proof.
  intros H. rewrite filter_app, filter_cons, filter_nil.
  rewrite decide_False by done. apply app_nil_r.
Qed.

Lemma filter_key_snoc_same done g k :
  group_key g = Some k ->
  filter (fun g' => group_key g' = Some k) (done ++ [g])
  = filter (fun g' => group_key g' = Some k) done ++ [g].
Proof.
  intros H. rewrite filter_app, filter_cons, filter_nil. by rewrite decide_True.
Qed.

Lemma filter_key_none done k :
  Forall (fun g => group_key g <> Some k) done ->
  filter (fun g' => group_key g' = Some k) done = [].
Proof.
  induction 1 as [|g l Hg _ IH]; [done|].
  rewrite filter_cons, decide_False by done. exact IH.
Qed.

Lemma invariant_header_bound m0 done st j h :
  mask_invariant Pf m0 done st ->
  Image.result_ st !! j = Some h -> (h < length (Image.store st))%nat.
Proof.
  intros Inv Hj.
  assert (is_Some (done !! j)) as [g Hg].
  { apply lookup_lt_is_Some. rewrite <- (inv_length _ _ _ _ Inv).
    by eapply lookup_lt_Some. }
  destruct (inv_header _ _ _ _ Inv j g h Hg Hj) as [Hs _].
  by eapply lookup_lt_Some.
Qed.

Lemma invariant_group_bound m0 done st k h :
  mask_invariant Pf m0 done st ->
  Image.groups st !! k = Some h -> (h < length (Image.store st))%nat.
Proof.
  intros Inv Hk. pose proof (inv_groups _ _ _ _ Inv k h Hk). by eapply lookup_lt_Some.
Qed.

(** A geometry without a group gets the fresh buffer. *)
Lemma invariant_step_ungrouped m0 done st g :
  mask_invariant Pf m0 done st ->
  group_key g = None ->
  mask_invariant Pf m0 (done ++ [g])
    (Image.mkLocals
       (alter (Geometry.draw_mask Pf g) (length (Image.store st)) (Image.store st ++ [m0]))
       (Image.groups st) (Image.result_ st ++ [length (Image.store st)])).
Proof.
  intros Inv Ek. pose proof Inv as [HL HH HG HF HI].
  set (n := length (Image.store st)).
  constructor; simpl.
  - rewrite !length_app. simpl. lia.
  - intros i g1 h Hd Hr.
    apply lookup_snoc_Some in Hd as [[Hi Hd]|[Hi <-]];
      apply lookup_snoc_Some in Hr as [[Hi' Hr]|[Hi' <-]]; try lia.
    + destruct (HH i g1 h Hd Hr) as [Hs Hm].
      pose proof (invariant_header_bound _ _ _ _ _ Inv Hr) as Hb.
      split.
      * rewrite partition_of_snoc_other.
        -- apply store_step_other; [done|]. unfold n. lia.
        -- destruct (group_key g1); [left; congruence|by right].
      * destruct (group_key g1) as [k1|]; [done|].
        destruct Hm as [Hm1 Hm2]. split; [done|].
        intros j Hj. apply lookup_snoc_Some in Hj as [[_ Hj]|[_ Hj]]; [by apply Hm2|].
        unfold n in Hj. lia.
    + split.
      * unfold partition_of. rewrite Ek. apply store_step_fresh.
      * rewrite Ek. split.
        -- intros k Hk. pose proof (invariant_group_bound _ _ _ _ _ Inv Hk). lia.
        -- intros j Hj. apply lookup_snoc_Some in Hj as [[_ Hj]|[Hj _]]; [|lia].
           pose proof (invariant_header_bound _ _ _ _ _ Inv Hj). unfold n in *. lia.
  - intros k h Hk. rewrite filter_key_snoc_other by congruence.
    pose proof (invariant_group_bound _ _ _ _ _ Inv Hk).
    apply store_step_other; [by apply HG|]. unfold n. lia.
  - intros k Hk. apply Forall_app; split; [by apply HF|].
    constructor; [congruence|constructor].
  - exact HI.
Qed.

(** The first geometry of a group gets the fresh buffer and files it under
    the key of the group. *)
Lemma invariant_step_new_group m0 done st g k :
  mask_invariant Pf m0 done st ->
  group_key g = Some k ->
  Image.groups st !! k = None ->
  mask_invariant Pf m0 (done ++ [g])
    (Image.mkLocals
       (alter (Geometry.draw_mask Pf g) (length (Image.store st)) (Image.store st ++ [m0]))
       (<[k := length (Image.store st)]> (Image.groups st))
       (Image.result_ st ++ [length (Image.store st)])).
Proof.
  intros Inv Ek Eg. pose proof Inv as [HL HH HG HF HI].
  set (n := length (Image.store st)).
  pose proof (HF k Eg) as Hnone.
  constructor; simpl.
  - rewrite !length_app. simpl. lia.
  - intros i g1 h Hd Hr.
    apply lookup_snoc_Some in Hd as [[Hi Hd]|[Hi <-]];
      apply lookup_snoc_Some in Hr as [[Hi' Hr]|[Hi' <-]]; try lia.
    + destruct (HH i g1 h Hd Hr) as [Hs Hm].
      pose proof (invariant_header_bound _ _ _ _ _ Inv Hr) as Hb.
      assert (group_key g1 <> Some k) as Hk1.
      { rewrite Forall_forall in Hnone. apply Hnone. eapply list_elem_of_lookup_2; eauto. }
      split.
      * rewrite partition_of_snoc_other.
        -- apply store_step_other; [done|]. unfold n. lia.
        -- left. congruence.
      * destruct (group_key g1) as [k1|].
        -- rewrite lookup_insert_ne by congruence. done.
        -- destruct Hm as [Hm1 Hm2]. split.
           ++ intros k0 Hk0. destruct (decide (k = k0)) as [->|Hne].
              ** rewrite lookup_insert_eq in Hk0. injection Hk0 as Hk0. unfold n in Hk0. lia.
              ** rewrite lookup_insert_ne in Hk0 by done. by eapply Hm1.
           ++ intros j Hj. apply lookup_snoc_Some in Hj as [[_ Hj]|[_ Hj]]; [by apply Hm2|].
              unfold n in Hj. lia.
    + split.
      * unfold partition_of. rewrite Ek. rewrite filter_key_snoc_same by done.
        rewrite filter_key_none by done. simpl. apply store_step_fresh.
      * rewrite Ek. apply lookup_insert_eq.
  - intros k0 h Hk. destruct (decide (k = k0)) as [<-|Hne].
    + rewrite lookup_insert_eq in Hk. injection Hk as <-.
      rewrite filter_key_snoc_same by done. rewrite filter_key_none by done.
      apply store_step_fresh.
    + rewrite lookup_insert_ne in Hk by done.
      rewrite filter_key_snoc_other by congruence.
      pose proof (invariant_group_bound _ _ _ _ _ Inv Hk).
      apply store_step_other; [by apply HG|]. unfold n. lia.
  - intros k0 Hk. destruct (decide (k = k0)) as [<-|Hne].
    + by rewrite lookup_insert_eq in Hk.
    + rewrite lookup_insert_ne in Hk by done.
      apply Forall_app; split; [by apply HF|].
      constructor; [congruence|constructor].
  - intros k1 k2 h H1 H2.
    destruct (decide (k = k1)) as [<-|Hne1]; destruct (decide (k = k2)) as [<-|Hne2]; try done.
    + rewrite lookup_insert_eq in H1. injection H1 as <-.
      rewrite lookup_insert_ne in H2 by done.
      pose proof (invariant_group_bound _ _ _ _ _ Inv H2). unfold n in *. lia.
    + rewrite lookup_insert_eq in H2. injection H2 as <-.
      rewrite lookup_insert_ne in H1 by done.
      pose proof (invariant_group_bound _ _ _ _ _ Inv H1). unfold n in *. lia.
    + rewrite lookup_insert_ne in H1, H2 by done. by eapply HI.
Qed.

(** A later geometry of a group is drawn on the buffer filed for the group;
    its own fresh buffer is dropped. *)
Lemma invariant_step_old_group m0 done st g k h0 :
  mask_invariant Pf m0 done st ->
  group_key g = Some k ->
  Image.groups st !! k = Some h0 ->
  mask_invariant Pf m0 (done ++ [g])
    (Image.mkLocals
       (alter (Geometry.draw_mask Pf g) h0 (Image.store st ++ [m0]))
       (Image.groups st) (Image.result_ st ++ [h0])).
Proof.
  intros Inv Ek Eg. pose proof Inv as [HL HH HG HF HI].
  pose proof (HG k h0 Eg) as Hs0.
  constructor; simpl.
  - rewrite !length_app. simpl. lia.
  - intros i g1 h Hd Hr.
    apply lookup_snoc_Some in Hd as [[Hi Hd]|[Hi <-]];
      apply lookup_snoc_Some in Hr as [[Hi' Hr]|[Hi' <-]]; try lia.
    + destruct (HH i g1 h Hd Hr) as [Hs Hm].
      destruct (group_key g1) as [k1|] eqn:Ek1.
      * split; [|done]. destruct (decide (k1 = k)) as [->|Hne].
        -- assert (h = h0) as -> by congruence.
           rewrite (partition_of_snoc_same _ _ _ k) by done.
           rewrite draw_all_app. simpl. by apply store_step_present.
        -- rewrite partition_of_snoc_other by (left; congruence).
           apply store_step_other; [done|]. intros ->. apply Hne. by eapply HI.
      * destruct Hm as [Hm1 Hm2]. assert (h <> h0) as Hne.
        { intros ->. by eapply Hm1. }
        split.
        -- rewrite partition_of_snoc_other by (by right). by apply store_step_other.
        -- split; [done|]. intros j Hj.
           apply lookup_snoc_Some in Hj as [[_ Hj]|[_ Hj]]; [by apply Hm2|]. congruence.
    + split; [|by rewrite Ek].
      unfold partition_of. rewrite Ek. rewrite filter_key_snoc_same by done.
      rewrite draw_all_app. simpl. by apply store_step_present.
  - intros k0 h Hk. destruct (decide (k0 = k)) as [->|Hne].
    + assert (h = h0) as -> by congruence.
      rewrite filter_key_snoc_same by done. rewrite draw_all_app. simpl.
      by apply store_step_present.
    + rewrite filter_key_snoc_other by congruence.
      apply store_step_other; [by apply HG|]. intros ->. apply Hne. by eapply HI.
  - intros k0 Hk. apply Forall_app; split; [by apply HF|].
    constructor; [congruence|constructor].
  - exact HI.
Qed.

Lemma invariant_start m0 : mask_invariant Pf m0 [] (Image.mkLocals [] ∅ []).
Proof. constructor; simpl; try done. Qed.

(** The loop of [mask] over the geometries of the label. *)
Lemma mask_loop_invariant img label m0 geos done st :
  Image.empty_mask img = Returns m0 ->
  Forall (fun g => Geometry.label g = label) geos ->
  mask_invariant Pf m0 done st ->
  exists st', for_each geos (Image.mask_body Pf img label) st = Returns st'
              /\ mask_invariant Pf m0 (done ++ geos) st'.
Proof.
  intros Hm0 Hgeos. revert done st.
  induction Hgeos as [|g geos Hg _ IH]; intros done st Inv; simpl.
  - exists st. by rewrite app_nil_r.
  - destruct (mask_body_returns img label m0 g st Hm0 Hg) as (mat & groups1 & -> & Hcase).
    replace (done ++ g :: geos) with ((done ++ [g]) ++ geos) by by rewrite <- app_assoc.
    apply IH.
    destruct (group_key g) as [k|] eqn:Ek.
    + destruct (Image.groups st !! k) as [h0|] eqn:Eg; destruct Hcase as [-> ->].
      * by apply invariant_step_old_group with k.
      * by apply invariant_step_new_group.
    + destruct Hcase as [-> ->]. by apply invariant_step_ungrouped.
Qed.

Lemma decimal_value_nonneg l : 0 <= decimal_value (leading_digits l).
Proof.
  unfold decimal_value.
  assert (forall ds acc, Forall (fun a => is_digit a = true) ds -> 0 <= acc ->
            0 <= fold_left (fun acc d => 10 * acc + digit_value d) ds acc) as H.
  { intros ds acc Hds. revert acc.
    induction Hds as [|a ds Ha _ IH]; intros acc Hacc; simpl; [done|].
    apply IH. unfold is_digit in Ha. apply andb_true_iff in Ha as [Ha _].
    apply Nat.leb_le in Ha. unfold digit_value. lia. }
  apply H; [|done]. clear H.
  induction l as [|a l IH]; simpl; [done|].
  destruct (is_digit a) eqn:E; [by constructor|done].
Qed.

Lemma hex_value_nonneg l acc : 0 <= acc -> 0 <= pugi.hex_value l acc.
Proof.
  revert acc. induction l as [|a l IH]; intros acc Hacc; simpl; [done|].
  destruct (pugi.hex_digit a) as [d|] eqn:E; [|done].
  apply IH.
  assert (match pugi.hex_digit a with Some d => 0 <=? d | None => true end = true) as H
    by (destruct a as [[] [] [] [] [] [] [] []]; reflexivity).
  rewrite E in H. apply Z.leb_le in H. lia.
Qed.

Lemma as_uint_range a : 0 <= pugi.as_uint a <= UINT_MAX.
Proof.
  unfold pugi.as_uint. destruct a as [v|]; simpl; [|unfold UINT_MAX; lia].
  unfold pugi.string_to_integer.
  set (s := match pugi.skip_space (c_str v) with
            | [] => _ | a :: s' => _ end).
  set (r := match s with
            | "0"%char :: x :: s' => _
            | _ => _ end).
  assert (0 <= r) as Hr.
  { unfold r. clear r.
    destruct s as [|c s']; [apply (decimal_value_nonneg [])|].
    destruct (Ascii.eqb_spec c "0"%char) as [->|Hc].
    - destruct s' as [|x s'']; [apply decimal_value_nonneg|].
      case_bool_decide; [by apply hex_value_nonneg|apply decimal_value_nonneg].
    - destruct c as [[] [] [] [] [] [] [] []]; try apply decimal_value_nonneg. done. }
  unfold UINT_MAX in *.
  destruct (bool_decide _).
  - destruct (Z.ltb_spec (- 0) r); lia.
  - destruct (Z.ltb_spec (2 ^ 32 - 1) r); lia.
Qed.

Lemma to_int_inj a b :
  0 <= a <= UINT_MAX -> 0 <= b <= UINT_MAX -> to_int a = to_int b -> a = b.
Proof.
  unfold to_int, UINT_MAX. intros Ha Hb H.
  assert (forall z, 0 <= z <= 2 ^ 32 - 1 ->
            (z + 2 ^ 31) mod 2 ^ 32 = if z <? 2 ^ 31 then z + 2 ^ 31 else z - 2 ^ 31) as Hmod.
  { intros z Hz. destruct (Z.ltb_spec z (2 ^ 31)).
    - apply Z.mod_small. lia.
    - symmetry. apply (Z.mod_unique _ _ 1); lia. }
  rewrite !Hmod in H by done.
  destruct (Z.ltb_spec a (2 ^ 31)), (Z.ltb_spec b (2 ^ 31)); lia.
Qed.

Lemma group_key_eq g g' : group_key g = group_key g' <-> Geometry.group g = Geometry.group g'.
Proof.
  unfold group_key, Geometry.group. split; [|by intros ->].
  destruct (pugi.empty (pugi.attribute g _)), (pugi.empty (pugi.attribute g' _));
    simpl; try done.
  intros [= H]. f_equal. apply to_int_inj; auto using as_uint_range.
Qed.

Lemma members_partition geos g : members geos g = partition_of geos g.
Proof.
  unfold members, partition_of, group_key.
  destruct (Geometry.group g) as [id|] eqn:E; simpl; [|done].
  apply list_filter_iff. intros g'.
  change (Some (to_int id)) with (to_int <$> Some id). rewrite <- E.
  fold (group_key g') (group_key g). rewrite group_key_eq. by rewrite E.
Qed.

End MaskFacts.

End MaskFacts.

(** ** The combined mask and the pipeline *)

Module PipelineFacts.

Import Cxx Raster RasterFacts.

Lemma mat_or_paint i1 i2 m :
  binary m ->
  mat_or (cv.paint i1 255 m) (cv.paint i2 255 m)
  = cv.paint (fun px py => i1 px py || i2 px py) 255 m.
Proof.
  intros Hb. unfold mat_or, cv.paint; simpl. f_equal.
  apply list_eq; intros py. rewrite lookup_zip_with, !list_lookup_imap.
  destruct (cv.data m !! py) as [row|] eqn:Hrow; simpl; [|done]. f_equal.
  apply list_eq; intros px. rewrite lookup_zip_with, !list_lookup_imap.
  destruct (row !! px) as [v|] eqn:Hv; simpl; [|done]. f_equal.
  assert (v = 0 \/ v = 255) as [-> | ->].
  { unfold binary in Hb. rewrite Forall_forall in Hb.
    specialize (Hb row ltac:(eapply list_elem_of_lookup_2; eauto)).
    rewrite Forall_forall in Hb. apply Hb. eapply list_elem_of_lookup_2; eauto. }
  - by destruct (i1 _ _), (i2 _ _).
  - by destruct (i1 _ _), (i2 _ _).
Qed.

Lemma union_of_rasterizations Pf geos m0 :
  binary m0 ->
  foldr mat_or m0 ((fun g => Geometry.draw_mask Pf g m0) <$> geos) = draw_all Pf geos m0.
Proof.
  intros Hb. rewrite draw_all_paint.
  induction geos as [|g geos IH].
  - symmetry. by apply paint_nothing.
  - rewrite fmap_cons. cbn [foldr]. rewrite IH, draw_mask_paint.
    by apply mat_or_paint.
Qed.

Lemma mask_combined_draw_all Pf img label m0 :
  Image.empty_mask img = Returns m0 ->
  Image.mask_combined Pf img label
  = Returns (draw_all Pf (with_label label (pugi.children img)) m0).
Proof.
  intros Hm0. unfold Image.mask_combined. rewrite Hm0. simpl. f_equal.
  unfold draw_all, with_label. generalize m0.
  induction (pugi.children img) as [|g l IH]; intros m; simpl; [done|].
  rewrite filter_cons. case_bool_decide as Hl.
  - rewrite decide_False by done. apply IH.
  - rewrite decide_True by (by destruct (decide (Geometry.label g = label))).
    simpl. apply IH.
Qed.

Lemma binary_zero m :
  (forall px py v, cv.at_ m px py = Some v -> v = 0) -> binary m.
Proof.
  intros H. unfold binary. apply Forall_forall. intros row Hrow.
  apply Forall_forall. intros v Hv.
  apply list_elem_of_lookup in Hrow as [py Hrow].
  apply list_elem_of_lookup in Hv as [px Hv].
  left. apply (H px py). unfold cv.at_. by rewrite Hrow.
Qed.

Lemma empty_mask_zero img m :
  Image.empty_mask img = Returns m ->
  well_formed m /\ forall px py v, cv.at_ m px py = Some v -> v = 0.
Proof.
  intros H. apply Mat_create_ok in H as (Hwf & _ & _ & Hz). by split.
Qed.

Lemma fold_left_snoc_map {A B} (f : A -> B) (l : list A) (acc : list B) :
  fold_left (fun result a => result ++ [f a]) l acc = acc ++ (f <$> l).
Proof.
  revert acc. induction l as [|a l IH]; intros acc; simpl.
  - by rewrite app_nil_r.
  - rewrite IH. by rewrite <- app_assoc.
Qed.

Section PipelineFacts.
Context (W : world) (Pf : platform).

Lemma write_labels_all fs image output_directory filename labels m0 :
  Image.empty_mask image = Returns m0 ->
  (forall fs' file m, exists b, imwrite W fs' file m = Returns b) ->
  write_labels W Pf fs image output_directory filename labels
  = ((fun l => (path.append (path.append output_directory l) filename,
                draw_all Pf (with_label l (pugi.children image)) m0)) <$> labels,
     Returns tt).
Proof.
  intros Hm0 Hw. induction labels as [|l labels IH]; simpl; [done|].
  rewrite (mask_combined_draw_all Pf image l m0 Hm0).
  destruct (Hw fs (path.append (path.append output_directory l) filename)
              (draw_all Pf (with_label l (pugi.children image)) m0)) as [b ->].
  by rewrite IH.
Qed.

Lemma write_masks_result fs xml_file output_directory :
  (write_masks_to_directory W Pf fs xml_file output_directory).2
  = match (create_label_directories W output_directory
             (CVATMaskGenerator.labels (CVATMaskGenerator.from_file W xml_file)) fs).2 with
    | Returns _ => Returns tt
    | Throws e => Throws e
    end.
Proof.
  unfold write_masks_to_directory.
  by destruct (create_label_directories _ _ _ _) as [created [fs'|e]].
Qed.

Lemma length_concat_const {A} (ls : list (list A)) n :
  Forall (fun l => length l = n) ls -> length (concat ls) = (n * length ls)%nat.
Proof.
  induction 1 as [|l ls Hl _ IH]; simpl; [lia|].
  rewrite length_app, IH, Hl. lia.
Qed.

End PipelineFacts.

End PipelineFacts.

(** * The claims *)

Import Cxx Raster CoordinateText.
Import ParserFacts RasterFacts MaskFacts PipelineFacts.

(** ** C1: grouped mode *)

(** C1, as amended.  Whenever the image admits a mask at all, [mask] returns
    one header for every geometry of the label, in document order.  The
    header of a geometry shows the buffer of its partition, which holds the
    shapes of all members of the partition drawn on an empty mask: all the
    geometries of the label with the same [group_id], or the geometry alone
    when it has none.  Two entries are one and the same buffer exactly when
    their geometries share a [group_id], so a group of [k] geometries fills
    [k] entries of the sequence, not one. *)
Theorem mask_one_entry_per_geometry (Pf : platform) (img : Image.t) (label : string) (m0 : cv.Mat) :
  Image.empty_mask img = Returns m0 ->
  exists headers store,
    Image.mask Pf img label = Returns (headers, store) /\
    let geos := with_label label (pugi.children img) in
    length headers = length geos /\
    (forall i g, geos !! i = Some g ->
       Image.pixels (headers, store) !! i = Some (Some (draw_all Pf (members geos g) m0))) /\
    (forall i j gi gj, geos !! i = Some gi -> geos !! j = Some gj ->
       (headers !! i = headers !! j <->
        i = j \/ (is_Some (Geometry.group gi) /\ Geometry.group gi = Geometry.group gj))).
Proof.
  intros Hm0. unfold Image.mask.
  rewrite (for_each_skip (fun g => Geometry.label g = label)).
  2:{ intros g st Hg. unfold Image.mask_body. by rewrite bool_decide_true. }
  destruct (mask_loop_invariant Pf img label m0
              (filter (fun g => Geometry.label g = label) (pugi.children img))
              [] (Image.mkLocals [] ∅ []) Hm0) as (st & Hst & Inv).
  { apply Forall_forall. by intros g [? _]%list_elem_of_filter. }
  { apply invariant_start. }
  simpl in Inv.
  exists (Image.result_ st), (Image.store st). split.
  { unfold Geometry.t in *. by rewrite Hst. }
  simpl. unfold with_label.
  pose proof Inv as [HL HH HG HF HI].
  split_and!; [done|..].
  - intros i g Hg.
    assert (is_Some (Image.result_ st !! i)) as [h Hh].
    { apply lookup_lt_is_Some. rewrite HL. by eapply lookup_lt_Some. }
    destruct (HH i g h Hg Hh) as [Hs _].
    unfold Image.pixels. simpl. rewrite list_lookup_fmap, Hh. simpl.
    by rewrite Hs, members_partition.
  - intros i j gi gj Hgi Hgj.
    assert (is_Some (Image.result_ st !! i)) as [hi Hhi].
    { apply lookup_lt_is_Some. rewrite HL. by eapply lookup_lt_Some. }
    assert (is_Some (Image.result_ st !! j)) as [hj Hhj].
    { apply lookup_lt_is_Some. rewrite HL. by eapply lookup_lt_Some. }
    destruct (HH i gi hi Hgi Hhi) as [_ Hmi]. destruct (HH j gj hj Hgj Hhj) as [_ Hmj].
    rewrite Hhi, Hhj. rewrite <- group_key_eq.
    assert (is_Some (Geometry.group gi) <-> is_Some (group_key gi)) as ->.
    { unfold group_key. by rewrite fmap_is_Some. }
    split.
    + intros [= <-]. destruct (group_key gi) as [ki|] eqn:Eki.
      * destruct (group_key gj) as [kj|] eqn:Ekj.
        -- right. split; [by eexists|]. f_equal. by eapply HI.
        -- left. destruct Hmj as [_ Hmj]. by apply Hmj.
      * left. destruct Hmi as [_ Hmi]. symmetry. by apply Hmi.
    + intros [->|[[ki Eki] Heq]]; [congruence|].
      rewrite <- Heq, Eki in Hmj. rewrite Eki in Hmi. congruence.
Qed.

(** C1, witness: the sample image with two boxes of group 1 and one box
    without a group yields three headers. *)
Lemma mask_one_entry_per_geometry_witness :
  Image.empty_mask Sample.grouped_image = Returns Sample.canvas_10x10 /\
  exists headers store,
    Image.mask Sample.bare Sample.grouped_image "car" = Returns (headers, store) /\
    length headers = 3%nat.
Proof.
  split; [reflexivity|].
  destruct (mask_one_entry_per_geometry Sample.bare Sample.grouped_image "car"
              Sample.canvas_10x10 eq_refl) as (headers & store & H & Hlen & _).
  exists headers, store. split; [exact H|exact Hlen].
Defined.

(** C1, counterexample: on the sample image the two boxes of group 1 and the
    box without a group make two partitions, and [mask] returns three
    entries, the first two being the buffer of the group twice. *)
Lemma one_mask_per_partition_fails :
  ~ AsWritten.one_mask_per_partition Sample.bare Sample.grouped_image "car".
Proof.
  unfold AsWritten.one_mask_per_partition. intros H.
  assert (exists store, Image.mask Sample.bare Sample.grouped_image "car"
                        = Returns ([0; 0; 2]%nat, store)) as [store E]
    by (vm_compute; eexists; reflexivity).
  specialize (H _ _ E). vm_compute in H. discriminate H.
Qed.

(** ** C2: boxes *)

(** C2, as amended.  On a well-formed canvas, and with corners whose
    differences fit an [int], drawing a box sets to 255 exactly the pixels
    with [xtl <= x < xbr] and [ytl <= y < ybr] that lie on the canvas and
    leaves every other pixel as it was: the column [xbr] and the line [ybr]
    are not filled. *)
Theorem box_fills_half_open (Pf : platform) (g : Geometry.t) (m : cv.Mat) (px py : nat) (v : Z) :
  let xtl := pugi.as_int (pugi.attribute g "xtl") in
  let ytl := pugi.as_int (pugi.attribute g "ytl") in
  let xbr := pugi.as_int (pugi.attribute g "xbr") in
  let ybr := pugi.as_int (pugi.attribute g "ybr") in
  pugi.name g = "box"%string ->
  well_formed m ->
  in_int (xbr - xtl) -> in_int (ybr - ytl) ->
  cv.at_ m px py = Some v ->
  cv.at_ (Geometry.draw_mask Pf g m) px py
  = Some (if (xtl <=? Z.of_nat px) && (Z.of_nat px <? xbr) &&
             (ytl <=? Z.of_nat py) && (Z.of_nat py <? ybr)
          then 255 else v).
Proof.
  intros xtl ytl xbr ybr Hname Hwf Hw Hh Hat.
  rewrite draw_mask_paint, at_paint, Hat. simpl. f_equal.
  unfold covered. rewrite Hname. simpl.
  unfold box_rect. fold xtl ytl xbr ybr.
  rewrite !to_int_id by done.
  rewrite rect_covers_spec.
  - replace (xtl + (xbr - xtl)) with xbr by lia.
    replace (ytl + (ybr - ytl)) with ybr by lia. done.
  - pose proof (proj1 (at_well_formed m px py Hwf) (ex_intro _ v Hat)). lia.
  - pose proof (proj1 (at_well_formed m px py Hwf) (ex_intro _ v Hat)). lia.
Qed.

(** C2, witness: the box (2,2,5,5) on the 10 x 10 canvas sets pixel (3,3). *)
Lemma box_fills_half_open_witness :
  pugi.name Sample.box_2_2_5_5 = "box"%string /\
  well_formed Sample.canvas_10x10 /\
  cv.at_ Sample.canvas_10x10 3 3 = Some 0 /\
  cv.at_ (Geometry.draw_mask Sample.bare Sample.box_2_2_5_5 Sample.canvas_10x10) 3 3
  = Some 255.
Proof.
  assert (well_formed Sample.canvas_10x10) as Hwf.
  { unfold well_formed. simpl. split_and!; try lia; try reflexivity.
    repeat constructor. }
  split_and!; [reflexivity|exact Hwf|reflexivity|].
  apply (box_fills_half_open Sample.bare Sample.box_2_2_5_5 Sample.canvas_10x10 3 3 0);
    [reflexivity|exact Hwf|..|reflexivity]; vm_compute; split; discriminate.
Defined.

(** C2, counterexample: the box (2,2,5,5) on the 10 x 10 canvas leaves the
    corner pixel (5,5) at 0, which the inclusive rectangle contains. *)
Lemma box_fills_inclusive_fails :
  ~ AsWritten.box_fills_inclusive Sample.bare Sample.box_2_2_5_5 Sample.canvas_10x10.
Proof.
  unfold AsWritten.box_fills_inclusive. intros H.
  specialize (H 5%nat 5%nat 0 eq_refl). vm_compute in H. discriminate H.
Qed.

(** ** C3: the combined mask *)

(** C3.  For an image that admits a mask and a label, the combined mask is
    the union, pixel by pixel, of the rasterizations of the geometries of
    the label, each drawn on its own empty mask; and drawing these
    geometries in any other order gives the same mask. *)
Theorem combined_mask_is_union (Pf : platform) (img : Image.t) (label : string) (m0 : cv.Mat) :
  Image.empty_mask img = Returns m0 ->
  let geos := with_label label (pugi.children img) in
  Image.mask_combined Pf img label
  = Returns (foldr mat_or m0 ((fun g => Geometry.draw_mask Pf g m0) <$> geos)) /\
  forall order, order ≡ₚ geos ->
    Image.mask_combined Pf img label = Returns (draw_all Pf order m0).
Proof.
  intros Hm0 geos. rewrite (mask_combined_draw_all Pf img label m0 Hm0). split.
  - f_equal. symmetry. apply union_of_rasterizations.
    apply binary_zero. exact (proj2 (empty_mask_zero img m0 Hm0)).
  - intros order Hp. f_equal. by apply draw_all_perm.
Qed.

(** C3, witness: the sample image and the label car. *)
Lemma combined_mask_is_union_witness :
  Image.empty_mask Sample.grouped_image = Returns Sample.canvas_10x10 /\
  Image.mask_combined Sample.bare Sample.grouped_image "car"
  = Returns (foldr mat_or Sample.canvas_10x10
               ((fun g => Geometry.draw_mask Sample.bare g Sample.canvas_10x10)
                  <$> with_label "car" (pugi.children Sample.grouped_image))).
Proof.
  split; [reflexivity|].
  exact (proj1 (combined_mask_is_union Sample.bare Sample.grouped_image "car"
                  Sample.canvas_10x10 eq_refl)).
Defined.

(** ** C4: the pipeline *)

(** C4, as amended.  When the label directories can be created, every image
    admits a mask and no call of [imwrite] throws, the run makes exactly one
    call of [imwrite] for every entry of the catalog and every image, entry
    by entry for each image: [|labels| * |images|] calls, a label declared
    twice counting twice.  A call carries the combined mask of its label
    and image, the empty mask when no geometry of the image has the label,
    and the path [output_directory / label / filename] with the extension of
    the filename replaced by [.png]. *)
Theorem one_write_per_catalog_entry_and_image (W : world) (Pf : platform)
    (fs : filesystem W) (xml_file output_directory : string) :
  let generator := CVATMaskGenerator.from_file W xml_file in
  let labels := CVATMaskGenerator.labels generator in
  let images := CVATMaskGenerator.images generator in
  (exists fs', (create_label_directories W output_directory labels fs).2 = Returns fs') ->
  (forall image, image ∈ images -> exists m0, Image.empty_mask image = Returns m0) ->
  (forall fs' file m, exists b, imwrite W fs' file m = Returns b) ->
  exists r,
    write_masks_to_directory W Pf fs xml_file output_directory = (r, Returns tt) /\
    length (emitted r) = (length labels * length images)%nat /\
    Forall2 (fun image future =>
               future.2 = Returns tt /\
               Forall2 (fun l call =>
                          call.1 = path.append (path.append output_directory l)
                                     (path.replace_extension (Image.filename image) ".png") /\
                          Image.mask_combined Pf image l = Returns call.2 /\
                          (with_label l (pugi.children image) = [] ->
                           Image.empty_mask image = Returns call.2))
                       labels future.1)
            images (futures r).
Proof.
  intros generator labels images [fs' Hdirs] Hmasks Hw.
  unfold write_masks_to_directory. fold generator labels images.
  destruct (create_label_directories W output_directory labels fs) as [created r] eqn:E.
  simpl in Hdirs. subst r.
  eexists. split; [reflexivity|].
  assert (Forall2 (fun image future =>
               future.2 = Returns tt /\
               Forall2 (fun l call =>
                          call.1 = path.append (path.append output_directory l)
                                     (path.replace_extension (Image.filename image) ".png") /\
                          Image.mask_combined Pf image l = Returns call.2 /\
                          (with_label l (pugi.children image) = [] ->
                           Image.empty_mask image = Returns call.2))
                       labels future.1)
            images ((fun image => task W Pf fs' image output_directory labels) <$> images)) as HF.
  { apply Forall2_fmap_r, Forall_Forall2_diag, Forall_forall.
    intros image Hin. destruct (Hmasks image Hin) as [m0 Hm0].
    unfold compose, task. cbn beta. rewrite (write_labels_all W Pf _ _ _ _ _ m0 Hm0 Hw). simpl.
    split; [done|].
    apply Forall2_fmap_r, Forall_Forall2_diag, Forall_forall.
    intros l _. unfold compose. simpl. split_and!; [done|by apply mask_combined_draw_all|].
    intros ->. by rewrite Hm0. }
  split; [|exact HF].
  unfold emitted. simpl.
  rewrite (length_concat_const _ (length labels)).
  - by rewrite !length_fmap.
  - apply Forall_fmap, Forall_fmap, Forall_forall. intros image Hin. simpl.
    destruct (Hmasks image Hin) as [m0 Hm0].
    unfold compose, task. cbn beta. rewrite (write_labels_all W Pf _ _ _ _ _ m0 Hm0 Hw). simpl.
    by rewrite length_fmap.
Qed.

(** C4, witness: the sample document with the labels car and plate and one
    image. *)
Lemma one_write_per_catalog_entry_and_image_witness :
  exists r,
    write_masks_to_directory
      (Sample.memory_world (Sample.one_file Sample.car_document) Sample.sink_ok)
      Sample.bare [] "annotations.xml" "out" = (r, Returns tt) /\
    length (emitted r) = 2%nat.
Proof.
  destruct (one_write_per_catalog_entry_and_image
              (Sample.memory_world (Sample.one_file Sample.car_document) Sample.sink_ok)
              Sample.bare [] "annotations.xml" "out") as (r & Hr & Hlen & _).
  - eexists. reflexivity.
  - intros image Hin. apply list_elem_of_In in Hin. simpl in Hin.
    destruct Hin as [<-|[]]. eexists. reflexivity.
  - intros fs' file m. eexists. reflexivity.
  - exists r. split; [exact Hr|exact Hlen].
Defined.

(** C4, counterexample: with the label car declared twice the run writes the
    mask of car and the one image twice. *)
Lemma one_mask_per_pair_fails :
  ~ AsWritten.one_mask_per_pair
      (Sample.memory_world (Sample.one_file Sample.twice_car_document) Sample.sink_ok)
      Sample.bare [] "annotations.xml" "out".
Proof.
  unfold AsWritten.one_mask_per_pair. intros H.
  specialize (H "car"%string (Some (Sample.image "a.jpg" "2" "1" []))).
  assert (2 = 1)%nat as Hfalse; [|discriminate Hfalse].
  etrans; [|apply H].
  - vm_compute. reflexivity.
  - vm_compute. apply list_elem_of_here.
  - vm_compute. apply list_elem_of_here.
Qed.

(** ** C5: the coordinate parser *)

(** C5.  For every list of points with coordinates in the range of [int],
    the [points] text [x1,y1;...;xn,yn] in decimal notation, with or without
    one closing semicolon, is parsed to exactly that list, in order; so
    ["10,20;30,40"] gives [(10,20); (30,40)] and the empty text gives no
    point. *)
Theorem parse_points_reads_coordinate_list (Pf : platform) :
  (forall (pts : list cv.Point) (node : pugi.xml_node) (text : string),
     Forall in_int_point pts ->
     pugi.attribute node "points" = Some text ->
     c_str text = show_points pts \/
       (pts <> [] /\ c_str text = show_points pts ++ [";"%char]) ->
     Geometry.parse_points Pf node = pts) /\
  Geometry.parse_points Pf Sample.polygon_10_20_30_40
  = [cv.mkPoint 10 20; cv.mkPoint 30 40] /\
  Geometry.parse_points Pf (Some (Sample.polygon "car" EmptyString)) = [].
Proof.
  assert (forall (pts : list cv.Point) (node : pugi.xml_node) (text : string),
     Forall in_int_point pts ->
     pugi.attribute node "points" = Some text ->
     c_str text = show_points pts \/
       (pts <> [] /\ c_str text = show_points pts ++ [";"%char]) ->
     Geometry.parse_points Pf node = pts) as Hgen.
  { intros pts node text Hpts Hattr Htext. unfold Geometry.parse_points.
    rewrite Hattr. simpl.
    destruct Htext as [->|[Hne ->]].
    - rewrite <- (app_nil_r (show_points pts)). by apply parse_show_points; [|left].
    - apply parse_show_points; [done|by right]. }
  split_and!; [exact Hgen|..].
  - apply (Hgen _ _ "10,20;30,40"%string); [|reflexivity|left; reflexivity].
    repeat constructor; vm_compute; discriminate.
  - apply (Hgen [] _ EmptyString); [constructor|reflexivity|left; reflexivity].
Qed.

(** C5, witness: the closing semicolon is accepted. *)
Lemma parse_points_reads_coordinate_list_witness :
  Forall in_int_point [cv.mkPoint 10 20; cv.mkPoint (-3) 40] /\
  Geometry.parse_points Sample.bare (Some (Sample.polygon "car" "10,20;-3,40;"))
  = [cv.mkPoint 10 20; cv.mkPoint (-3) 40].
Proof.
  assert (Forall in_int_point [cv.mkPoint 10 20; cv.mkPoint (-3) 40]) as H
    by (repeat constructor; vm_compute; discriminate).
  split; [exact H|].
  apply (proj1 (parse_points_reads_coordinate_list Sample.bare) _ _ "10,20;-3,40;"%string H).
  - reflexivity.
  - right. split; [discriminate|reflexivity].
Defined.

(** ** C6: documents that cannot be read *)

(** C6, the program at the failing input.  The document exists and holds no
    XML: the loader reports the failure, [from_file] drops the report, and
    the run goes on over the empty tree.  Nothing is created or written, as
    the claim says, but the process ends with exit code 0 and nothing on
    standard error, where the claim says a non-zero code and a message.  A
    document without a catalog ends the same way: its image gets a task
    that writes nothing. *)
Theorem unreadable_document_exits_zero (Pf : platform)
    (sink : string -> cv.Mat -> result bool) (fs : list string)
    (cvat_file output_directory : string) :
  Sample.no_xml cvat_file = (pugi.status_no_document_element, pugi.empty_document) /\
  main (Sample.memory_world Sample.no_xml sink) Pf fs (cli_parsed cvat_file output_directory)
  = mkEnd 0 EmptyString (Some (mkRun [] [])) /\
  main (Sample.memory_world (Sample.one_file Sample.no_catalog_document) sink) Pf fs
    (cli_parsed cvat_file output_directory)
  = mkEnd 0 EmptyString (Some (mkRun [] [([], Returns tt)])).
Proof. split_and!; reflexivity. Qed.

(** ** C7: the label catalog *)

(** C7, as amended.  The catalog lists the name of every label declaration
    of the document, in declaration order, one entry per declaration: a name
    declared twice is listed twice. *)
Theorem labels_one_per_declaration (g : CVATMaskGenerator.t) :
  CVATMaskGenerator.labels g
  = (fun l => pugi.text_as_string (pugi.child l "name"))
      <$> pugi.children (pugi.child (CVATMaskGenerator.m_task g) "labels") /\
  forall names images,
    CVATMaskGenerator.labels (CVATMaskGenerator.make (Sample.document names images)) = names.
Proof.
  split.
  - unfold CVATMaskGenerator.labels. by rewrite fold_left_snoc_map.
  - intros names images. unfold CVATMaskGenerator.labels. rewrite fold_left_snoc_map.
    simpl. rewrite <- list_fmap_compose.
    induction names as [|n names IH]; [done|]. rewrite !fmap_cons. by f_equal.
Qed.

(** C7, counterexample: the document that declares car twice has the catalog
    car, car. *)
Lemma catalog_deduplicated_fails :
  ~ AsWritten.catalog_deduplicated (CVATMaskGenerator.make Sample.twice_car_document).
Proof.
  unfold AsWritten.catalog_deduplicated. intros H.
  assert (CVATMaskGenerator.labels (CVATMaskGenerator.make Sample.twice_car_document)
          = ["car"; "car"]%string) as E by reflexivity.
  rewrite E in H. apply NoDup_cons in H as [H _]. apply H. apply list_elem_of_here.
Qed.

(** ** C8: masks are binary and only gain foreground *)

(** C8.  A fresh mask has every pixel 0; drawing a geometry of any kind on a
    mask of pixels 0 and 255 gives such a mask again; and it leaves every
    pixel as it was or sets it to 255, so a pixel at 255 stays at 255. *)
Theorem masks_start_black_and_only_gain_foreground (Pf : platform) :
  (forall img m, Image.empty_mask img = Returns m ->
     forall px py v, cv.at_ m px py = Some v -> v = 0) /\
  (forall g m, binary m -> binary (Geometry.draw_mask Pf g m)) /\
  (forall g m px py v, cv.at_ m px py = Some v ->
     cv.at_ (Geometry.draw_mask Pf g m) px py = Some v \/
     cv.at_ (Geometry.draw_mask Pf g m) px py = Some 255) /\
  (forall g m px py, cv.at_ m px py = Some 255 ->
     cv.at_ (Geometry.draw_mask Pf g m) px py = Some 255).
Proof.
  split_and!.
  - intros img m H. exact (proj2 (empty_mask_zero img m H)).
  - intros g m Hb. rewrite draw_mask_paint. by apply paint_binary.
  - intros g m px py v Hv. rewrite draw_mask_paint, at_paint, Hv. simpl.
    destruct (covered _ _ _ _ _ _); [by right|by left].
  - intros g m px py Hv. rewrite draw_mask_paint, at_paint, Hv. simpl.
    by destruct (covered _ _ _ _ _ _).
Qed.

(** C8, witness: drawing the sample box on the 10 x 10 canvas. *)
Lemma masks_start_black_and_only_gain_foreground_witness :
  binary Sample.canvas_10x10 /\
  binary (Geometry.draw_mask Sample.bare Sample.box_2_2_5_5 Sample.canvas_10x10).
Proof.
  assert (binary Sample.canvas_10x10) as H
    by (unfold binary; simpl; repeat constructor).
  split; [exact H|].
  exact (proj1 (proj2 (masks_start_black_and_only_gain_foreground Sample.bare))
           Sample.box_2_2_5_5 Sample.canvas_10x10 H).
Defined.

(** ** C9: failed writes *)

(** C9, the program at the failing input.  What [write_masks_to_directory]
    returns depends on the creation of the directories alone.  On the sample
    document, when [imwrite] throws, the exception stays in the future of the
    task, the other labels of the image are not written, and the process
    ends with exit code 0 and nothing on standard error; when [imwrite]
    returns [false], all writes are attempted and the process ends the same
    way. *)
Theorem failed_writes_are_dropped :
  (forall W Pf fs xml_file output_directory,
     (write_masks_to_directory W Pf fs xml_file output_directory).2
     = match (create_label_directories W output_directory
                (CVATMaskGenerator.labels (CVATMaskGenerator.from_file W xml_file)) fs).2 with
       | Returns _ => Returns tt
       | Throws e => Throws e
       end) /\
  (let W := Sample.memory_world (Sample.one_file Sample.car_document) Sample.sink_throws in
   let e := main W Sample.bare [] (cli_parsed "annotations.xml" "out") in
   exit_code e = 0 /\ cerr e = EmptyString /\
   (futures <$> done_ e)
   = Some [([("out/car/frame.png"%string, cv.mkMat 2 4 (replicate 2 (replicate 4 255)))],
            Throws (cv_Exception "could not write the image"))]) /\
  (let W := Sample.memory_world (Sample.one_file Sample.car_document) Sample.sink_false in
   let e := main W Sample.bare [] (cli_parsed "annotations.xml" "out") in
   exit_code e = 0 /\ cerr e = EmptyString /\
   (fun r => (emitted r).*1) <$> done_ e
   = Some ["out/car/frame.png"; "out/plate/frame.png"]%string /\
   imwrite W ["out/plate"; "out/car"]%string "out/car/frame.png"
     (cv.mkMat 2 4 (replicate 2 (replicate 4 255))) = Returns false).
Proof.
  split_and!.
  - intros. apply write_masks_result.
  - vm_compute. done.
  - vm_compute. done.
Qed.

(** ** C10: the parser terminates *)

(** C10.  Both copies of [parse_points] are total.  Each turn of the loop
    moves the scan position forward, past the next semicolon or past the
    end of the text; the function is the loop unrolled; and it returns at
    most as many points as the text has characters. *)
Theorem parse_points_terminates_within_input (Pf : platform) (node : pugi.xml_node) :
  let s := c_str (pugi.as_string (pugi.attribute node "points")) in
  (forall cur, (cur < length s)%nat ->
     (cur < Geometry.y_coord_end s cur + 1 <= length s + 1)%nat /\
     Geometry.parse_points_from Pf s cur
     = Geometry.point_at Pf s cur
         :: Geometry.parse_points_from Pf s (Geometry.y_coord_end s cur + 1)) /\
  (forall cur, (length s <= cur)%nat -> Geometry.parse_points_from Pf s cur = []) /\
  (length (Geometry.parse_points Pf node) <= length s)%nat /\
  (length (CVATMaskGenerator.parse_points Pf node) <= length s)%nat.
Proof.
  intros s. split_and!.
  - intros cur Hcur. split.
    + pose proof (y_coord_end_bounds s cur). lia.
    + rewrite parse_points_from_eq at 1. by rewrite decide_True.
  - intros cur Hcur. by apply parse_points_from_end.
  - unfold Geometry.parse_points. fold s.
    pose proof (parse_points_from_length Pf s 0). lia.
  - unfold CVATMaskGenerator.parse_points. fold s. rewrite parse_points_copies.
    pose proof (parse_points_from_length Pf s 0). lia.
Qed.

(** C10, witness: in the text of the sample polygon the scan position 0 moves
    to 6, past the first semicolon. *)
Lemma parse_points_terminates_within_input_witness :
  (0 < length (c_str "10,20;30,40"))%nat /\
  (0 < Geometry.y_coord_end (c_str "10,20;30,40") 0 + 1 <= 11 + 1)%nat.
Proof.
  split; [vm_compute; lia|].
  apply (proj1 (parse_points_terminates_within_input Sample.bare
                  Sample.polygon_10_20_30_40) 0%nat).
  vm_compute. lia.
Defined.

(** * Lemmas for the further properties *)

(** ** The coordinate parser, segment by segment *)

Module SegmentFacts.






Section ParserMore.
Context (Pf : platform).



Lemma leading_digits_prefix ds rest :
  Forall (fun a => is_digit a = true) ds ->
  (rest = [] \/ exists c r, rest = c :: r /\ is_digit c = false) ->
  leading_digits (ds ++ rest) = ds.
Proof.
  intros Hds Hrest. induction Hds as [|a ds Ha _ IH]; simpl.
  - destruct Hrest as [->|(c & r & -> & Hc)]; [done|]. simpl. by rewrite Hc.
  - by rewrite Ha, IH.
Qed.

Lemma from_chars_digits_prefix (negative : bool) ds rest value :
  ds <> [] -> Forall (fun a => is_digit a = true) ds ->
  (rest = [] \/ exists c r, rest = c :: r /\ is_digit c = false) ->
  in_int (if negative then - decimal_value ds else decimal_value ds) ->
  from_chars ((if negative then ["-"%char] else []) ++ ds ++ rest) value
  = if negative then - decimal_value ds else decimal_value ds.
Proof.
  intros Hne Hds Hrest Hin.
  assert (in_intb (if negative then - decimal_value ds else decimal_value ds) = true) as Hb.
  { unfold in_intb, in_int in *. apply andb_true_intro; split; apply Z.leb_le; lia. }
  pose proof (leading_digits_prefix ds rest Hds Hrest) as Hl.
  destruct ds as [|a ds]; [done|].
  unfold from_chars. destruct negative.
  - change (["-"%char] ++ (a :: ds) ++ rest) with ("-"%char :: ((a :: ds) ++ rest)).
    cbv iota beta. rewrite Hl. by rewrite Hb.
  - assert (a <> "-"%char) as Ha by (intros ->; by inversion Hds).
    change ([] ++ (a :: ds) ++ rest) with (a :: (ds ++ rest)).
    change ((a :: ds) ++ rest) with (a :: (ds ++ rest)) in Hl.
    destruct a as [[] [] [] [] [] [] [] []]; try done; rewrite Hl, Hb; done.
Qed.

Lemma from_chars_number_prefix z rest value :
  in_int z ->
  (rest = [] \/ exists c r, rest = c :: r /\ is_digit c = false) ->
  from_chars (show_int z ++ rest) value = z.
Proof.
  intros Hz Hrest. destruct (show_int_shape z) as (neg & d & -> & Hd & Hv).
  rewrite <- app_assoc.
  assert ((if neg then - decimal_value (uint_chars d) else decimal_value (uint_chars d)) = z)
    as Hval by (rewrite decimal_value_uint; by destruct neg).
  rewrite from_chars_digits_prefix; [done|by apply uint_chars_nonnil| |done|by rewrite Hval].
  apply uint_chars_digits.
Qed.

Lemma fraction_text_plain f c :
  fraction_text f -> is_digit c = false -> c <> "."%char -> plain c f.
Proof.
  intros [->|(ds & -> & Hds)] Hc Hdot; [constructor|].
  constructor; [congruence|].
  eapply Forall_impl; [exact Hds|]. simpl. intros a Ha ->. congruence.
Qed.

Lemma fraction_text_rest f :
  fraction_text f -> f = [] \/ exists c r, f = c :: r /\ is_digit c = false.
Proof.
  intros [->|(ds & -> & _)]; [by left|right]. by eexists _, _.
Qed.

Lemma show_coord_plain c sep :
  fraction_text c.2 -> is_digit sep = false -> sep <> "-"%char -> sep <> "."%char ->
  plain sep (show_coord c).
Proof.
  intros Hf Hd Hm Hdot. apply Forall_app. split.
  - by apply show_int_plain.
  - by apply fraction_text_plain.
Qed.

(** One segment [X,Y] in front of a text, then the end or a semicolon. *)
Lemma parse_segment_then X Y tail x y :
  plain ","%char X -> plain ";"%char X -> plain ";"%char Y ->
  tail = [] \/ (exists rest, tail = ";"%char :: rest) ->
  (forall v, from_chars X v = x) -> (forall v, from_chars Y v = y) ->
  Geometry.parse_points_from Pf (X ++ ","%char :: Y ++ tail) 0
  = cv.mkPoint x y :: Geometry.parse_points_from Pf (drop 1 tail) 0.
Proof.
  intros HcX HsX HsY Htail Hx Hy.
  rewrite parse_points_from_eq.
  destruct (decide (0 < length (X ++ ","%char :: Y ++ tail))%nat) as [_|Hn].
  2:{ rewrite length_app in Hn. simpl in Hn. lia. }
  rewrite (point_at_front Pf _ _ _ x y) by done.
  f_equal.
  destruct (coord_ends _ _ _ HcX HsX HsY Htail) as [_ ->].
  destruct Htail as [->|[rest ->]]; simpl.
  - rewrite (parse_points_from_end Pf []) by (simpl; lia).
    apply parse_points_from_end. rewrite app_nil_r, length_app. simpl. lia.
  - rewrite drop_0.
    replace (X ++ ","%char :: Y ++ ";"%char :: rest)
      with ((X ++ ","%char :: Y ++ [";"%char]) ++ rest)
      by (rewrite <- !app_assoc; simpl; by rewrite <- app_assoc).
    replace (length X + 1 + length Y + 1)%nat
      with (length (X ++ ","%char :: Y ++ [";"%char]) + 0)%nat
      by (rewrite length_app; simpl; rewrite length_app; simpl; lia).
    apply parse_points_from_shift.
Qed.

Lemma parse_show_fpoints pts :
  Forall fpoint_ok pts ->
  Geometry.parse_points_from Pf (show_fpoints pts) 0
  = (fun p => cv.mkPoint p.1.1 p.2.1) <$> pts.
Proof.
  induction 1 as [|p rest Hp Hrest IH]; simpl.
  - apply parse_points_from_end. simpl. lia.
  - destruct Hp as (Hx & Hfx & Hy & Hfy).
    assert (forall tail, tail = [] \/ (exists r, tail = ";"%char :: r) ->
              Geometry.parse_points_from Pf (show_fpoint p ++ tail) 0
              = cv.mkPoint p.1.1 p.2.1 :: Geometry.parse_points_from Pf (drop 1 tail) 0) as Hseg.
    { intros tail Htail. unfold show_fpoint. rewrite <- app_assoc. simpl.
      apply parse_segment_then; try done.
      - by apply show_coord_plain.
      - by apply show_coord_plain.
      - by apply show_coord_plain.
      - intros v. apply from_chars_number_prefix; [done|by apply fraction_text_rest].
      - intros v. apply from_chars_number_prefix; [done|by apply fraction_text_rest]. }
    destruct rest as [|q rest].
    + rewrite <- (app_nil_r (show_fpoint p)). rewrite Hseg by (by left). simpl.
      f_equal.
    + rewrite Hseg by eauto. simpl. rewrite drop_0. by f_equal.
Qed.

End ParserMore.

End SegmentFacts.

(** ** Drawing and dimensions *)

Module DrawingFacts.

Section DrawingMore.
Context (Pf : platform).

Lemma draw_mask_well_formed g m : well_formed m -> well_formed (Geometry.draw_mask Pf g m).
Proof. intros H. rewrite draw_mask_paint. by apply paint_well_formed. Qed.

Lemma draw_all_well_formed geos m : well_formed m -> well_formed (draw_all Pf geos m).
Proof. intros H. rewrite draw_all_paint. by apply paint_well_formed. Qed.

Lemma draw_mask_unknown g m :
  known_kind (pugi.name g) = false -> Geometry.draw_mask Pf g m = m.
Proof.
  unfold known_kind, Geometry.draw_mask. intros H.
  repeat (apply orb_false_elim in H as [H ?]).
  repeat match goal with E : String.eqb _ _ = false |- _ => rewrite E; clear E end.
  done.
Qed.

Lemma draw_all_known geos m :
  draw_all Pf (filter (fun g => known_kind (pugi.name g) = true) geos) m = draw_all Pf geos m.
Proof.
  unfold draw_all. revert m. induction geos as [|g geos IH]; intros m; simpl; [done|].
  rewrite filter_cons. destruct (decide (known_kind (pugi.name g) = true)) as [Hk|Hk]; simpl.
  - apply IH.
  - rewrite draw_mask_unknown by (by destruct (known_kind _)). apply IH.
Qed.

Lemma mask_combined_alt img label :
  Image.mask_combined Pf img label
  = Image.empty_mask img ≫= fun m0 =>
      mret (draw_all Pf (with_label label (pugi.children img)) m0).
Proof.
  destruct (Image.empty_mask img) as [m0|e] eqn:E.
  - by rewrite (mask_combined_draw_all Pf img label m0 E).
  - unfold Image.mask_combined. by rewrite E.
Qed.

End DrawingMore.

Lemma points_cover_elem pts px py :
  points_cover pts px py = bool_decide (cv.mkPoint px py ∈ pts).
Proof.
  unfold points_cover. induction pts as [|p pts IH]; simpl.
  - done.
  - rewrite IH. apply eq_true_iff_eq.
    rewrite orb_true_iff, andb_true_iff, !Z.eqb_eq, !bool_decide_eq_true, elem_of_cons.
    destruct p as [x y]; simpl. split.
    + intros [[-> ->]|H]; [by left|by right].
    + intros [[= -> ->]|H]; [by left|by right].
Qed.

Lemma rect_covers_degenerate rows cols rx ry rw rh px py :
  rw <= 0 \/ rh <= 0 -> rect_covers rows cols (cv.mkRect rx ry rw rh) px py = false.
Proof.
  intros H. unfold rect_covers, cv.Rect_and. simpl.
  set (w := Z.min (rx + rw) (-1 + (cols + 2)) - Z.max rx (-1)).
  set (h := Z.min (ry + rh) (-1 + (rows + 2)) - Z.max ry (-1)).
  destruct (Z.leb_spec w 0) as [Hw|Hw]; simpl; [done|].
  destruct (Z.leb_spec h 0) as [Hh|Hh]; simpl; [done|].
  exfalso. unfold w, h in *. lia.
Qed.

Lemma string_to_integer_range v minv maxv :
  minv <= 0 <= maxv -> minv <= pugi.string_to_integer v minv maxv <= maxv.
Proof.
  intros Hb. unfold pugi.string_to_integer.
  set (s := match pugi.skip_space v with
            | [] => _ | a :: s' => _ end).
  set (r := match s with
            | "0"%char :: x :: s' => _
            | _ => _ end).
  assert (0 <= r) as Hr.
  { unfold r. clear r.
    destruct s as [|c s']; [apply (decimal_value_nonneg [])|].
    destruct (Ascii.eqb_spec c "0"%char) as [->|Hc].
    - destruct s' as [|x s'']; [apply decimal_value_nonneg|].
      case_bool_decide; [by apply hex_value_nonneg|apply decimal_value_nonneg].
    - destruct c as [[] [] [] [] [] [] [] []]; try apply decimal_value_nonneg. done. }
  destruct (bool_decide _).
  - destruct (Z.ltb_spec (- minv) r); lia.
  - destruct (Z.ltb_spec maxv r); lia.
Qed.

Lemma as_int_range a : in_int (pugi.as_int a).
Proof.
  unfold in_int, pugi.as_int. destruct a as [v|]; simpl.
  - apply string_to_integer_range. unfold INT_MIN, INT_MAX. lia.
  - unfold INT_MIN, INT_MAX. lia.
Qed.


End DrawingFacts.

(** ** Paths and directories *)

Module PathFacts.

Lemma rindex_of_lt c l i : path.rindex_of c l = Some i -> (i < length l)%nat.
Proof.
  revert i. induction l as [|a l IH]; intros i; simpl; [done|].
  destruct (path.rindex_of c l) as [j|].
  - intros [= <-]. specialize (IH j eq_refl). lia.
  - destruct (Ascii.eqb a c); [|done]. intros [= <-]. lia.
Qed.

Lemma rindex_of_plain c l : plain c l -> path.rindex_of c l = None.
Proof.
  induction 1 as [|a l Ha _ IH]; simpl; [done|].
  rewrite IH. by destruct (Ascii.eqb_spec a c).
Qed.

Lemma rindex_of_app_plain c l r :
  plain c r -> path.rindex_of c (l ++ r) = path.rindex_of c l.
Proof.
  intros Hr. induction l as [|a l IH]; simpl.
  - by apply rindex_of_plain.
  - by rewrite IH.
Qed.

Lemma rindex_of_last c l r :
  plain c r -> path.rindex_of c (l ++ c :: r) = Some (length l).
Proof.
  intros Hr. induction l as [|a l IH]; simpl.
  - rewrite rindex_of_plain by done. by rewrite Ascii.eqb_refl.
  - by rewrite IH.
Qed.

Lemma filename_app stem rest :
  plain "/"%char rest -> path.filename (stem ++ rest) = path.filename stem ++ rest.
Proof.
  intros Hr. unfold path.filename. rewrite rindex_of_app_plain by done.
  destruct (path.rindex_of "/"%char stem) as [i|] eqn:E; [|done].
  apply rindex_of_lt in E. rewrite drop_app_le by lia. done.
Qed.

Lemma extension_of_stem_ext stem ext :
  path.filename stem <> [] -> ext <> [] ->
  plain "."%char ext -> plain "/"%char ext ->
  path.extension (stem ++ "."%char :: ext) = "."%char :: ext.
Proof.
  intros Hstem Hext Hdot Hslash. unfold path.extension.
  rewrite filename_app by (constructor; done).
  rewrite bool_decide_false.
  2:{ intros [H|H]; apply (f_equal length) in H; rewrite length_app in H;
      destruct (path.filename stem), ext; simpl in *; try done; lia. }
  rewrite rindex_of_last by done.
  destruct (path.filename stem) as [|a l] eqn:E; [done|].
  simpl. apply drop_app_length.
Qed.

Lemma list_ascii_of_string_app a b :
  list_ascii_of_string (a ++ b) = list_ascii_of_string a ++ list_ascii_of_string b.
Proof. induction a as [|c a IH]; simpl; [done|]. by rewrite IH. Qed.

Lemma replace_extension_of_stem_ext (p : string) stem ext :
  c_str p = stem ++ "."%char :: ext ->
  path.filename stem <> [] -> ext <> [] ->
  plain "."%char ext -> plain "/"%char ext ->
  path.replace_extension p ".png" = string_of_list_ascii (stem ++ c_str ".png").
Proof.
  intros Hp Hstem Hext Hdot Hslash. unfold path.replace_extension.
  rewrite Hp, extension_of_stem_ext by done. simpl.
  replace (length (stem ++ "."%char :: ext) - S (length ext))%nat with (length stem)
    by (rewrite length_app; simpl; lia).
  by rewrite take_app_length.
Qed.

Section PipelineMore.
Context (W : world) (Pf : platform).

Lemma write_labels_paths fs image output_directory filename labels call :
  call ∈ (write_labels W Pf fs image output_directory filename labels).1 ->
  exists l, l ∈ labels /\
            call.1 = path.append (path.append output_directory l) filename /\
            Image.mask_combined Pf image l = Returns call.2.
Proof.
  induction labels as [|l labels IH]; simpl; [by intros ?%elem_of_nil|].
  destruct (Image.mask_combined Pf image l) as [mat|e] eqn:Em; simpl;
    [|by intros ?%elem_of_nil].
  destruct (imwrite W fs _ mat) as [b|e] eqn:Ew; simpl.
  - destruct (write_labels W Pf fs image output_directory filename labels) as [calls r].
    simpl in *. intros [->|Hin]%elem_of_cons.
    + exists l. split_and!; [apply list_elem_of_here|done|done].
    + destruct (IH Hin) as (l' & Hl' & Hp). exists l'. split; [by apply list_elem_of_further|done].
  - intros [->|Hin]%elem_of_cons; [|by apply elem_of_nil in Hin].
    exists l. split_and!; [apply list_elem_of_here|done|done].
Qed.

Lemma create_no_labels output_directory fs :
  create_label_directories W output_directory [] fs = ([], Returns fs).
Proof. done. Qed.

End PipelineMore.

Lemma labels_empty_catalog g :
  pugi.children (pugi.child (CVATMaskGenerator.m_task g) "labels") = [] ->
  CVATMaskGenerator.labels g = [].
Proof. intros H. unfold CVATMaskGenerator.labels. by rewrite H. Qed.

Section DirectoriesMore.
Context (W : world).



End DirectoriesMore.

End PathFacts.

(** ** The listings of the generator *)

Module ListingFacts.

Lemma image_labels_map img : Image.labels img = Geometry.label <$> pugi.children img.
Proof. unfold Image.labels. by rewrite fold_left_snoc_map. Qed.

Lemma labels_of_file_from (filename : string) (images : list pugi.xml_node) (acc : list string) :
  fold_left
    (fun labels image =>
       if bool_decide (filename ≠ pugi.as_string (pugi.attribute image "name")) then labels
       else fold_left
              (fun labels geometry =>
                 labels ++ [pugi.as_string (pugi.attribute geometry "label")])
              (pugi.children image) labels)
    images acc
  = acc ++ concat (Image.labels <$> filter (fun image => Image.filename image = filename) images).
Proof.
  revert acc. induction images as [|image images IH]; intros acc; simpl.
  - by rewrite app_nil_r.
  - rewrite IH, filter_cons.
    destruct (decide (Image.filename image = filename)) as [He|He];
      unfold Image.filename in He.
    + rewrite bool_decide_false by (intros ?; congruence).
      rewrite fmap_cons. simpl. rewrite image_labels_map.
      rewrite (fold_left_snoc_map (fun g => pugi.as_string (pugi.attribute g "label"))).
      by rewrite <- app_assoc.
    + rewrite bool_decide_true by congruence. done.
Qed.

Lemma filenames_from (images : list pugi.xml_node) (acc : list string) :
  fold_left
    (fun files image =>
       let attr := pugi.attribute image "name" in
       if negb (pugi.empty attr) then files ++ [pugi.as_string attr] else files)
    images acc
  = acc ++ omap (fun image => pugi.attribute image "name") images.
Proof.
  revert acc. induction images as [|image images IH]; intros acc; simpl.
  - by rewrite app_nil_r.
  - rewrite IH. destruct (pugi.attribute image "name") as [n|]; simpl; [|done].
    by rewrite <- app_assoc.
Qed.

Lemma for_each_all_skip {A S : Type} (body : A -> S -> result S) (l : list A) (s : S) :
  Forall (fun a => forall s, body a s = Returns s) l -> for_each l body s = Returns s.
Proof.
  induction 1 as [|a l Ha _ IH]; simpl; [done|]. by rewrite Ha.
Qed.

End ListingFacts.

(** ** The buffers of [mask] and of the generator *)

Module GroupedFacts.

Lemma union_of_paints {A} (c : A -> Z -> Z -> bool) (l : list A) m0 :
  binary m0 ->
  foldr mat_or m0 ((fun a => cv.paint (c a) 255 m0) <$> l)
  = cv.paint (fun px py => existsb (fun a => c a px py) l) 255 m0.
Proof.
  intros Hb. induction l as [|a l IH].
  - symmetry. by apply paint_nothing.
  - rewrite fmap_cons. cbn [foldr]. rewrite IH. by apply mat_or_paint.
Qed.

Section GroupedMore.
Context (Pf : platform).


Lemma partition_of_covers geos px py rows cols :
  existsb (fun g => existsb (fun g' => covered Pf g' rows cols px py) (partition_of geos g)) geos
  = existsb (fun g' => covered Pf g' rows cols px py) geos.
Proof.
  apply eq_true_iff_eq. rewrite !existsb_exists. split.
  - intros (g & Hg & Hex). apply existsb_exists in Hex as (g' & Hg' & Hc).
    exists g'. split; [|done]. unfold partition_of in Hg'.
    destruct (group_key g) as [k|].
    + apply list_elem_of_In in Hg'. apply list_elem_of_filter in Hg' as [_ Hin].
      by apply list_elem_of_In.
    + destruct Hg' as [<-|[]]. done.
  - intros (g & Hg & Hc). exists g. split; [done|].
    apply existsb_exists. exists g. split; [|done]. unfold partition_of.
    destruct (group_key g) as [k|] eqn:Ek.
    + apply list_elem_of_In, list_elem_of_filter. split; [done|by apply list_elem_of_In].
    + by left.
Qed.

End GroupedMore.

Section FileMasks.
Context (Pf : platform).

Lemma masks_draw_eq g m : CVATMaskGenerator.masks_draw Pf g m = Geometry.draw_mask Pf g m.
Proof.
  unfold CVATMaskGenerator.masks_draw, Geometry.draw_mask,
    CVATMaskGenerator.parse_points, Geometry.parse_points.
  by rewrite !parse_points_copies.
Qed.

(** The invariant looks at the buffers behind the headers only. *)
Lemma invariant_drop_unused m0 done store x G R :
  mask_invariant Pf m0 done (Image.mkLocals (store ++ [x]) G R) ->
  (forall j h, R !! j = Some h -> (h < length store)%nat) ->
  (forall k h, G !! k = Some h -> (h < length store)%nat) ->
  mask_invariant Pf m0 done (Image.mkLocals store G R).
Proof.
  intros [HL HH HG HF HI] HR HGb. simpl in *. constructor; simpl; try done.
  - intros i g h Hd Hr. destruct (HH i g h Hd Hr) as [Hs Hm]. split; [|done].
    rewrite lookup_app_l in Hs by eauto. done.
  - intros k h Hk. specialize (HG k h Hk). rewrite lookup_app_l in HG by eauto. done.
Qed.

(** A geometry of a known group is drawn on the buffer of the group; no
    buffer is made. *)
Lemma invariant_step_old_group_in_place m0 done st g k h0 :
  mask_invariant Pf m0 done st ->
  group_key g = Some k ->
  Image.groups st !! k = Some h0 ->
  mask_invariant Pf m0 (done ++ [g])
    (Image.mkLocals (alter (Geometry.draw_mask Pf g) h0 (Image.store st))
       (Image.groups st) (Image.result_ st ++ [h0])).
Proof.
  intros Inv Ek Eg.
  pose proof (invariant_group_bound Pf m0 done st k h0 Inv Eg) as Hh0.
  apply (invariant_drop_unused m0 _ _ m0).
  - replace (alter (Geometry.draw_mask Pf g) h0 (Image.store st) ++ [m0])
      with (alter (Geometry.draw_mask Pf g) h0 (Image.store st ++ [m0])).
    + by apply (invariant_step_old_group Pf m0 done st g k h0).
    + apply list_eq. intros i. destruct (decide (i = h0)) as [->|Hne].
      * rewrite list_lookup_alter_eq, !lookup_app_l, list_lookup_alter_eq
          by (rewrite ?length_alter; lia). done.
      * rewrite list_lookup_alter_ne by done.
        destruct (decide (i < length (Image.store st))%nat).
        -- rewrite !lookup_app_l by (rewrite ?length_alter; lia).
           by rewrite list_lookup_alter_ne.
        -- rewrite !lookup_app_r by (rewrite ?length_alter; lia).
           by rewrite length_alter.
  - intros j h Hj. rewrite length_alter.
    apply lookup_snoc_Some in Hj as [[_ Hj]|[_ <-]]; [|done].
    by eapply invariant_header_bound.
  - intros k' h Hk'. rewrite length_alter. by eapply invariant_group_bound.
Qed.

Lemma masks_geometry_step height width label m0 done st g :
  cv.Mat_create height width 0 = Returns m0 ->
  Geometry.label g = label ->
  (forall id, Geometry.group g = Some id ->
     pugi.as_int (pugi.attribute g "group_id") = to_int id) ->
  mask_invariant Pf m0 done st ->
  exists st', CVATMaskGenerator.masks_geometry Pf height width label g st = Returns st' /\
              mask_invariant Pf m0 (done ++ [g]) st'.
Proof.
  intros Hm0 Hl Hid Inv. unfold CVATMaskGenerator.masks_geometry.
  rewrite bool_decide_false by (intros H; apply H; by rewrite <- Hl).
  assert (forall h (s : list cv.Mat),
            alter (CVATMaskGenerator.masks_draw Pf g) h s
            = alter (Geometry.draw_mask Pf g) h s) as Hdraw.
  { intros h s. apply list_alter_ext; [|done]. intros. by rewrite masks_draw_eq. }
  unfold group_key, Geometry.group in *.
  destruct (pugi.empty (pugi.attribute g "group_id")) eqn:Eempty.
  - rewrite !Hm0. simpl. rewrite Hdraw.
    eexists. split; [by destruct (String.eqb _ _)|].
    apply invariant_step_ungrouped; [done|]. unfold group_key, Geometry.group.
    by rewrite Eempty.
  - rewrite (Hid _ eq_refl).
    assert (group_key g = Some (to_int (pugi.as_uint (pugi.attribute g "group_id")))) as Ek.
    { unfold group_key, Geometry.group. by rewrite Eempty. }
    set (k := to_int (pugi.as_uint (pugi.attribute g "group_id"))) in *.
    destruct (Image.groups st !! k) as [h0|] eqn:Eg.
    + rewrite bool_decide_true by done. rewrite !Hm0. simpl. rewrite Eg. simpl.
      rewrite Hdraw.
      eexists. split; [by destruct (String.eqb _ _)|].
      by apply (invariant_step_old_group_in_place m0 done st g k h0).
    + rewrite bool_decide_false by (by intros [? ?]). rewrite !Hm0. simpl.
      rewrite lookup_insert_eq. simpl. rewrite Hdraw.
      eexists. split; [by destruct (String.eqb _ _)|].
      by apply invariant_step_new_group.
Qed.

Lemma masks_geometry_loop height width label m0 geos done st :
  cv.Mat_create height width 0 = Returns m0 ->
  Forall (fun g => Geometry.label g = label /\
                   forall id, Geometry.group g = Some id ->
                     pugi.as_int (pugi.attribute g "group_id") = to_int id) geos ->
  mask_invariant Pf m0 done st ->
  exists st', for_each geos (CVATMaskGenerator.masks_geometry Pf height width label) st
              = Returns st' /\
              mask_invariant Pf m0 (done ++ geos) st'.
Proof.
  intros Hm0 Hgeos. revert done st.
  induction Hgeos as [|g geos [Hl Hid] _ IH]; intros done st Inv; simpl.
  - exists st. by rewrite app_nil_r.
  - destruct (masks_geometry_step height width label m0 done st g Hm0 Hl Hid Inv)
      as (st1 & -> & Inv1).
    replace (done ++ g :: geos) with ((done ++ [g]) ++ geos) by by rewrite <- app_assoc.
    by apply IH.
Qed.

(** What the invariant says of the returned vector: its pixels, and which
    of its entries are one buffer. *)
Lemma invariant_pixels m0 done st :
  mask_invariant Pf m0 done st ->
  Image.pixels (Image.result_ st, Image.store st)
  = (fun g => Some (draw_all Pf (partition_of done g) m0)) <$> done.
Proof.
  intros Inv. pose proof Inv as [HL HH _ _ _].
  apply list_eq. intros i. unfold Image.pixels. simpl.
  rewrite !list_lookup_fmap.
  destruct (done !! i) as [g|] eqn:Hg; simpl.
  - assert (is_Some (Image.result_ st !! i)) as [h Hh].
    { apply lookup_lt_is_Some. rewrite HL. by eapply lookup_lt_Some. }
    destruct (HH i g h Hg Hh) as [Hs _]. rewrite Hh. simpl. by rewrite Hs.
  - assert (Image.result_ st !! i = None) as ->; [|done].
    apply lookup_ge_None. rewrite HL. by apply lookup_ge_None in Hg.
Qed.

Lemma invariant_aliasing m0 done st i j gi gj :
  mask_invariant Pf m0 done st ->
  done !! i = Some gi -> done !! j = Some gj ->
  Image.result_ st !! i = Image.result_ st !! j <->
  i = j \/ (is_Some (group_key gi) /\ group_key gi = group_key gj).
Proof.
  intros Inv Hi Hj. pose proof Inv as [HL HH HG HF HI].
  assert (is_Some (Image.result_ st !! i)) as [hi Hhi].
  { apply lookup_lt_is_Some. rewrite HL. by eapply lookup_lt_Some. }
  assert (is_Some (Image.result_ st !! j)) as [hj Hhj].
  { apply lookup_lt_is_Some. rewrite HL. by eapply lookup_lt_Some. }
  destruct (HH i gi hi Hi Hhi) as [_ Hmi]. destruct (HH j gj hj Hj Hhj) as [_ Hmj].
  rewrite Hhi, Hhj. split.
  - intros [= <-]. destruct (group_key gi) as [ki|] eqn:Eki.
    + destruct (group_key gj) as [kj|] eqn:Ekj.
      * right. split; [done|]. f_equal. by eapply HI.
      * destruct Hmj as [Hmj _]. by destruct (Hmj ki).
    + destruct Hmi as [_ Hmi]. left. symmetry. by apply Hmi.
  - intros [->|[[k Hk] Heq]]; [congruence|].
    rewrite Hk in *. rewrite <- Heq in Hmj. congruence.
Qed.

End FileMasks.

End GroupedFacts.

(** ** The buffers of [masks] *)

Module ByLabelFacts.

Import ByLabel ListingFacts.

Lemma filter_none {A} (P : A -> Prop) `{!forall a, Decision (P a)} (l : list A) :
  Forall (fun a => ~ P a) l -> filter P l = [].
Proof.
  induction 1 as [|a l Ha _ IH]; [done|]. rewrite filter_cons, decide_False by done. done.
Qed.

Lemma filter_ext_in {A} (P Q : A -> Prop) `{!forall a, Decision (P a)}
    `{!forall a, Decision (Q a)} (l : list A) :
  Forall (fun a => P a <-> Q a) l -> filter P l = filter Q l.
Proof.
  induction 1 as [|a l Ha _ IH]; [done|]. rewrite !filter_cons, IH.
  destruct (decide (P a)), (decide (Q a)); tauto.
Qed.

Lemma owner_snoc_old done g g' :
  g' ∈ done -> owner (done ++ [g]) g' = owner done g'.
Proof.
  intros Hin. unfold owner. destruct (group_key g') as [k|] eqn:Ek; [|done].
  rewrite filter_app.
  assert (g' ∈ filter (fun g0 => group_key g0 = Some k) done) as Hf.
  { by apply list_elem_of_filter. }
  destruct (filter (fun g0 => group_key g0 = Some k) done) as [|first rest]; [|done].
  by apply elem_of_nil in Hf.
Qed.

Lemma owner_is_label geos g :
  g ∈ geos -> exists g', g' ∈ geos /\ owner geos g = Geometry.label g'.
Proof.
  intros Hin. unfold owner. destruct (group_key g) as [k|] eqn:Ek; [|by exists g].
  destruct (filter (fun g0 => group_key g0 = Some k) geos) as [|first rest] eqn:Ef.
  - by exists g.
  - exists first. split; [|done].
    assert (first ∈ filter (fun g0 => group_key g0 = Some k) geos) as Hf
      by (rewrite Ef; left).
    by apply list_elem_of_filter in Hf as [_ ?].
Qed.

Lemma drawn_under_snoc done g l :
  drawn_under (done ++ [g]) l
  = drawn_under done l ++ (if decide (owner (done ++ [g]) g = l) then [g] else []).
Proof.
  unfold drawn_under. rewrite filter_app. f_equal.
  apply filter_ext_in. apply Forall_forall. intros g' Hg'.
  by rewrite owner_snoc_old.
Qed.

Lemma drawn_under_unlabelled done l :
  Forall (fun g => Geometry.label g <> l) done -> drawn_under done l = [].
Proof.
  intros Hall. unfold drawn_under. apply filter_none. apply Forall_forall.
  intros g Hg Hown. destruct (owner_is_label done g Hg) as (g' & Hg' & Hl).
  rewrite Forall_forall in Hall. apply (Hall g' Hg'). congruence.
Qed.

Section Invariant.
Context (Pf : platform).

Lemma masks_invariant_start m0 : masks_invariant Pf m0 [] (Image.mkMasksLocals [] ∅ ∅).
Proof.
  split; simpl; intros *; rewrite ?lookup_empty; try done.
Qed.

(** The state after [try_emplace] on [result]: the label of [g] has a
    buffer, which no geometry was drawn on if it is new. *)
Lemma masks_invariant_emplace m0 done st l :
  masks_invariant Pf m0 done st ->
  exists h store1 result1,
    (match Image.masks_result st !! l with
     | Some present => (present, Image.masks_store st, Image.masks_result st)
     | None => (length (Image.masks_store st), Image.masks_store st ++ [m0],
                <[l := length (Image.masks_store st)]> (Image.masks_result st))
     end) = (h, store1, result1) /\
    result1 !! l = Some h /\
    (forall l' h', Image.masks_result st !! l' = Some h' -> result1 !! l' = Some h') /\
    (forall l' h', result1 !! l' = Some h' ->
       store1 !! h' = Some (draw_all Pf (drawn_under done l') m0)) /\
    (forall l' h', result1 !! l' = Some h' ->
       l' = l \/ Image.masks_result st !! l' = Some h') /\
    (forall l1 l2 h', result1 !! l1 = Some h' -> result1 !! l2 = Some h' -> l1 = l2).
Proof.
  intros [HB HLab HU HD HG HN].
  destruct (Image.masks_result st !! l) as [present|] eqn:El.
  - exists present, (Image.masks_store st), (Image.masks_result st).
    repeat split; eauto.
  - set (n := length (Image.masks_store st)).
    assert (forall l' h', Image.masks_result st !! l' = Some h' -> (h' < n)%nat) as Hlt.
    { intros l' h' H. apply HB in H. by apply lookup_lt_Some in H. }
    exists n, (Image.masks_store st ++ [m0]), (<[l := n]> (Image.masks_result st)).
    split; [done|]. split; [by rewrite lookup_insert_eq|].
    split.
    { intros l' h' H. rewrite lookup_insert_ne; [done|]. intros <-. congruence. }
    split.
    { intros l' h'. destruct (decide (l' = l)) as [->|Hne].
      - rewrite lookup_insert_eq. intros [= <-].
        rewrite drawn_under_unlabelled by auto.
        rewrite lookup_app_r by (unfold n; lia). unfold n. by rewrite Nat.sub_diag.
      - rewrite lookup_insert_ne by done. intros H.
        apply lookup_app_l_Some. by apply HB. }
    split.
    { intros l' h'. destruct (decide (l' = l)) as [->|Hne]; [by left|].
      rewrite lookup_insert_ne by done. by right. }
    intros l1 l2 h'.
    destruct (decide (l1 = l)) as [->|H1], (decide (l2 = l)) as [->|H2]; [done|..].
    + rewrite lookup_insert_eq, lookup_insert_ne by done. intros [= <-] H%Hlt. lia.
    + rewrite lookup_insert_eq, lookup_insert_ne by done. intros H%Hlt [= <-]. lia.
    + rewrite !lookup_insert_ne by done. apply HD.
Qed.

Lemma masks_body_step img m0 done st g :
  Image.empty_mask img = Returns m0 ->
  masks_invariant Pf m0 done st ->
  exists st', Image.masks_body Pf img g st = Returns st' /\
              masks_invariant Pf m0 (done ++ [g]) st'.
Proof.
  intros Hm0 Inv. pose proof Inv as [HB HLab HU HD HG HN].
  destruct (masks_invariant_emplace m0 done st (Geometry.label g) Inv)
    as (hl & store1 & result1 & Hemp & Hl & Hext & Hbuf & Hold & Hinj).
  (* the header drawn on, and the groups after the step *)
  set (tg := match Geometry.group g with
             | Some id => match Image.masks_groups st !! to_int id with
                          | Some present => (present, Image.masks_groups st)
                          | None => (hl, <[to_int id := hl]> (Image.masks_groups st))
                          end
             | None => (hl, Image.masks_groups st)
             end).
  assert (Image.masks_body Pf img g st
          = Returns (Image.mkMasksLocals (alter (Geometry.draw_mask Pf g) tg.1 store1)
                       result1 tg.2)) as Hrun.
  { unfold Image.masks_body. unfold Image.empty_mask in Hm0. cbn zeta in Hm0.
    destruct (Image.masks_result st !! Geometry.label g) as [present|] eqn:El.
    - injection Hemp as <- <- <-. simpl. subst tg.
      destruct (Geometry.group g) as [id|]; [|done].
      by destruct (Image.masks_groups st !! to_int id).
    - rewrite Hm0. injection Hemp as <- <- <-. simpl. subst tg.
      destruct (Geometry.group g) as [id|]; [|done].
      by destruct (Image.masks_groups st !! to_int id). }
  eexists. split; [exact Hrun|]. clear Hrun Hemp.
  (* the header drawn on is the buffer of the owner of [g] *)
  assert (result1 !! owner (done ++ [g]) g = Some tg.1 /\
          (forall k h, tg.2 !! k = Some h ->
             exists first rest,
               filter (fun g' => group_key g' = Some k) (done ++ [g]) = first :: rest /\
               result1 !! Geometry.label first = Some h) /\
          (forall k, tg.2 !! k = None -> group_key g <> Some k /\
                                         Image.masks_groups st !! k = None)) as (Hown & Hgrp & Hnogrp).
  { unfold owner. subst tg.
    assert (forall k h, Image.masks_groups st !! k = Some h ->
             exists first rest,
               filter (fun g' => group_key g' = Some k) (done ++ [g]) = first :: rest /\
               result1 !! Geometry.label first = Some h) as Hkeep.
    { intros k h Hk. destruct (HG k h Hk) as (first & rest & Hf & Hr).
      rewrite filter_app, Hf. simpl. eauto. }
    destruct (Geometry.group g) as [id|] eqn:Eg; simpl.
    - assert (group_key g = Some (to_int id)) as Ekey
        by (unfold group_key; by rewrite Eg).
      rewrite Ekey, filter_app, filter_cons, filter_nil.
      rewrite decide_True by done.
      destruct (Image.masks_groups st !! to_int id) as [present|] eqn:Ek; simpl.
      + destruct (HG _ _ Ek) as (first & rest & -> & Hr). simpl.
        split; [by apply Hext|]. split; [done|].
        intros k Hk. split; [|done]. intros [= <-]. congruence.
      + rewrite (filter_none _ done) by (apply Forall_impl with (1 := HN _ Ek); auto).
        simpl. split; [done|]. split.
        * intros k h. destruct (decide (k = to_int id)) as [->|Hne].
          -- rewrite lookup_insert_eq. intros [= <-].
             rewrite filter_app, filter_cons, filter_nil.
             rewrite (filter_none _ done) by (apply Forall_impl with (1 := HN _ Ek); auto).
             rewrite decide_True by done.
             simpl. eauto.
          -- rewrite lookup_insert_ne by done. apply Hkeep.
        * intros k. destruct (decide (k = to_int id)) as [->|Hne].
          -- by rewrite lookup_insert_eq.
          -- rewrite lookup_insert_ne by done. intros Hk. split; [|done].
             intros [= <-]. done.
    - assert (group_key g = None) as Ekey by (unfold group_key; by rewrite Eg).
      rewrite Ekey. split; [done|]. split.
      + intros k h Hk. apply Hkeep, Hk.
      + intros k Hk. by split. }
  split; simpl.
  - intros l h Hlh. rewrite drawn_under_snoc.
    destruct (decide (owner (done ++ [g]) g = l)) as [<-|Hne].
    + assert (h = tg.1) as -> by congruence.
      rewrite list_lookup_alter_eq, (Hbuf _ _ Hlh). simpl.
      by rewrite draw_all_app.
    + rewrite app_nil_r. rewrite list_lookup_alter_ne; [by apply Hbuf|].
      intros <-. apply Hne. by eapply Hinj.
  - intros l h Hlh. apply Exists_app. destruct (Hold _ _ Hlh) as [->|Hst].
    + right. by left.
    + left. by eapply HLab.
  - intros l Hnone. apply Forall_app. split.
    + apply HU. destruct (Image.masks_result st !! l) as [h|] eqn:E; [|done].
      apply Hext in E. congruence.
    + apply Forall_singleton. intros <-. congruence.
  - exact Hinj.
  - exact Hgrp.
  - intros k Hk. destruct (Hnogrp k Hk) as [Hg Hst]. apply Forall_app. split.
    + by apply HN.
    + by apply Forall_singleton.
Qed.

Lemma masks_loop_invariant img m0 geos done st :
  Image.empty_mask img = Returns m0 ->
  masks_invariant Pf m0 done st ->
  exists st', for_each geos (Image.masks_body Pf img) st = Returns st'
              /\ masks_invariant Pf m0 (done ++ geos) st'.
Proof.
  intros Hm0. revert done st.
  induction geos as [|g geos IH]; intros done st Inv; simpl.
  - exists st. by rewrite app_nil_r.
  - destruct (masks_body_step img m0 done st g Hm0 Inv) as (st1 & -> & Inv1).
    replace (done ++ g :: geos) with ((done ++ [g]) ++ geos) by by rewrite <- app_assoc.
    by apply IH.
Qed.

Lemma masks_returns_invariant img m0 :
  Image.empty_mask img = Returns m0 ->
  exists st, Image.masks Pf img = Returns (Image.masks_result st, Image.masks_store st) /\
             masks_invariant Pf m0 (pugi.children img) st.
Proof.
  intros Hm0.
  destruct (masks_loop_invariant img m0 (pugi.children img) [] _ Hm0
              (masks_invariant_start m0)) as (st & Hst & Inv).
  exists st. split; [|done]. unfold Image.masks. unfold Geometry.t in *. by rewrite Hst.
Qed.

End Invariant.


Lemma owner_ungrouped geos g : Geometry.group g = None -> owner geos g = Geometry.label g.
Proof. intros H. unfold owner, group_key. by rewrite H. Qed.

Lemma mask_of_labelled Pf img m0 st label :
  masks_invariant Pf m0 (pugi.children img) st ->
  label ∈ Image.labels img ->
  Image.mask_of (Image.masks_result st, Image.masks_store st) label
  = Some (draw_all Pf (drawn_under (pugi.children img) label) m0).
Proof.
  intros [HB HLab HU HD HG HN]. rewrite image_labels_map.
  intros (g & -> & Hg)%list_elem_of_fmap. unfold Image.mask_of. simpl.
  destruct (Image.masks_result st !! Geometry.label g) as [h|] eqn:E.
  - simpl. by apply HB.
  - apply HU in E. rewrite Forall_forall in E. by destruct (E g Hg).
Qed.

Lemma mask_of_unlabelled Pf img m0 st label :
  masks_invariant Pf m0 (pugi.children img) st ->
  label ∉ Image.labels img ->
  Image.mask_of (Image.masks_result st, Image.masks_store st) label = None.
Proof.
  intros [HB HLab HU HD HG HN]. rewrite image_labels_map. intros Hnot.
  unfold Image.mask_of. simpl.
  destruct (Image.masks_result st !! label) as [h|] eqn:E; [|done].
  apply HLab in E. apply Exists_exists in E as (g & Hg & <-).
  destruct Hnot. apply list_elem_of_fmap. by exists g.
Qed.

End ByLabelFacts.

Import ByLabel.
Import SegmentFacts DrawingFacts PathFacts ListingFacts GroupedFacts ByLabelFacts.

(** * Further properties *)

(** ** The coordinate parser *)


(** X2.  Coordinates written with a fraction are read up to the period: a
    list of points whose coordinates are decimal integers in the range of
    [int], each followed by nothing or by a period and digits, is parsed to
    the integer parts, in order, by both copies of [parse_points]. *)
Theorem parse_points_truncates_fractions (Pf : platform) (node : pugi.xml_node)
    (pts : list ((Z * cstr) * (Z * cstr))) :
  Forall fpoint_ok pts ->
  c_str (pugi.as_string (pugi.attribute node "points")) = show_fpoints pts ->
  Geometry.parse_points Pf node = (fun p => cv.mkPoint p.1.1 p.2.1) <$> pts /\
  CVATMaskGenerator.parse_points Pf node = (fun p => cv.mkPoint p.1.1 p.2.1) <$> pts.
Proof.
  intros Hok Htext.
  unfold CVATMaskGenerator.parse_points, Geometry.parse_points.
  rewrite parse_points_copies, Htext. split; by apply parse_show_fpoints.
Qed.

(** X2, witness: the polygon [1.5,2.25;-3.75,4]. *)
Lemma parse_points_truncates_fractions_witness :
  Forall fpoint_ok [((1, c_str ".5"), (2, c_str ".25")); ((-3, c_str ".75"), (4, []))] /\
  Geometry.parse_points Sample.bare Cases.fraction_polygon
  = [cv.mkPoint 1 2; cv.mkPoint (-3) 4].
Proof.
  assert (forall x fx y fy,
            in_intb x = true -> fx = [] \/ (exists ds, fx = "."%char :: ds /\
                                              forallb is_digit ds = true) ->
            in_intb y = true -> fy = [] \/ (exists ds, fy = "."%char :: ds /\
                                              forallb is_digit ds = true) ->
            fpoint_ok ((x, fx), (y, fy))) as Hok.
  { assert (forall z, in_intb z = true -> in_int z) as Hint.
    { intros z H. unfold in_intb in H. apply andb_prop in H as [H1 H2].
      unfold in_int. split; by apply Z.leb_le. }
    assert (forall f, f = [] \/ (exists ds, f = "."%char :: ds /\
                                   forallb is_digit ds = true) -> fraction_text f) as Hf.
    { intros f [->|(ds & -> & Hds)]; [by left|]. right. exists ds. split; [done|].
      apply Forall_forall. intros a Ha. rewrite forallb_forall in Hds.
      apply Hds. by apply list_elem_of_In. }
    intros x fx y fy Hx Hfx Hy Hfy. unfold fpoint_ok. simpl. auto. }
  assert (Forall fpoint_ok
            [((1, c_str ".5"), (2, c_str ".25")); ((-3, c_str ".75"), (4, []))]) as H.
  { constructor; [|constructor; [|constructor]].
    - apply Hok; [reflexivity|right; eexists; split; reflexivity
                 |reflexivity|right; eexists; split; reflexivity].
    - apply Hok; [reflexivity|right; eexists; split; reflexivity
                 |reflexivity|left; reflexivity]. }
  split; [exact H|].
  exact (proj1 (parse_points_truncates_fractions Sample.bare Cases.fraction_polygon
                  _ H eq_refl)).
Defined.

(** ** Drawing *)

(** X3.  Drawing a geometry a second time changes nothing, and two
    geometries can be drawn in either order, on any matrix. *)
Theorem draw_mask_idempotent_and_commutes (Pf : platform) (g g' : Geometry.t) (m : cv.Mat) :
  Geometry.draw_mask Pf g (Geometry.draw_mask Pf g m) = Geometry.draw_mask Pf g m /\
  Geometry.draw_mask Pf g (Geometry.draw_mask Pf g' m)
  = Geometry.draw_mask Pf g' (Geometry.draw_mask Pf g m).
Proof.
  rewrite !draw_mask_paint. simpl. rewrite !paint_paint. split.
  - apply paint_ext. intros px py. apply orb_diag.
  - apply paint_ext. intros px py. apply orb_comm.
Qed.

(** X4.  A [points] geometry sets to 255 exactly the pixels of the matrix
    that are among its parsed points, and leaves the others as they were. *)
Theorem points_set_exactly_their_pixels (Pf : platform) (g : Geometry.t) (m : cv.Mat)
    (px py : nat) (v : Z) :
  pugi.name g = "points"%string ->
  cv.at_ m px py = Some v ->
  cv.at_ (Geometry.draw_mask Pf g m) px py
  = Some (if bool_decide (cv.mkPoint (Z.of_nat px) (Z.of_nat py) ∈ Geometry.parse_points Pf g)
          then 255 else v).
Proof.
  intros Hname Hat. rewrite draw_mask_paint, at_paint, Hat. simpl. f_equal.
  unfold covered. rewrite Hname. simpl. by rewrite points_cover_elem.
Qed.

(** X4, witness: the points (1,1) and (3,2) on the 10 x 10 canvas. *)
Lemma points_set_exactly_their_pixels_witness :
  pugi.name Cases.two_points = "points"%string /\
  cv.at_ Sample.canvas_10x10 3 2 = Some 0 /\
  cv.at_ (Geometry.draw_mask Sample.bare Cases.two_points Sample.canvas_10x10) 3 2
  = Some 255.
Proof.
  split_and!; [reflexivity|reflexivity|].
  exact (points_set_exactly_their_pixels Sample.bare Cases.two_points Sample.canvas_10x10
           3 2 0 eq_refl eq_refl).
Defined.

(** X5.  A box whose right edge is not right of its left edge, or whose
    bottom is not below its top, draws nothing (the differences of the
    corners fitting an [int]). *)
Theorem degenerate_box_draws_nothing (Pf : platform) (g : Geometry.t) (m : cv.Mat) :
  let xtl := pugi.as_int (pugi.attribute g "xtl") in
  let ytl := pugi.as_int (pugi.attribute g "ytl") in
  let xbr := pugi.as_int (pugi.attribute g "xbr") in
  let ybr := pugi.as_int (pugi.attribute g "ybr") in
  pugi.name g = "box"%string ->
  in_int (xbr - xtl) -> in_int (ybr - ytl) ->
  xbr <= xtl \/ ybr <= ytl ->
  Geometry.draw_mask Pf g m = m.
Proof.
  intros xtl ytl xbr ybr Hname Hw Hh Hdeg.
  rewrite draw_mask_paint. apply paint_nothing. intros px py.
  unfold covered. rewrite Hname. simpl. unfold box_rect. fold xtl ytl xbr ybr.
  rewrite !to_int_id by done. apply rect_covers_degenerate. lia.
Qed.

(** X5, witness: the box (5,5,5,9). *)
Lemma degenerate_box_draws_nothing_witness :
  pugi.name Cases.flat_box = "box"%string /\
  Geometry.draw_mask Sample.bare Cases.flat_box Sample.canvas_10x10 = Sample.canvas_10x10.
Proof.
  split; [reflexivity|].
  apply (degenerate_box_draws_nothing Sample.bare Cases.flat_box Sample.canvas_10x10);
    [reflexivity|vm_compute; split; discriminate|vm_compute; split; discriminate|].
  left. vm_compute. discriminate.
Defined.

(** X6.  A box is clipped to the matrix: when it covers the whole of a
    well-formed matrix, every pixel of the matrix is 255 afterwards, and no
    pixel outside the matrix is looked for. *)
Theorem covering_box_fills_canvas (Pf : platform) (g : Geometry.t) (m : cv.Mat) :
  let xtl := pugi.as_int (pugi.attribute g "xtl") in
  let ytl := pugi.as_int (pugi.attribute g "ytl") in
  let xbr := pugi.as_int (pugi.attribute g "xbr") in
  let ybr := pugi.as_int (pugi.attribute g "ybr") in
  pugi.name g = "box"%string ->
  well_formed m ->
  in_int (xbr - xtl) -> in_int (ybr - ytl) ->
  xtl <= 0 -> ytl <= 0 -> cv.cols m <= xbr -> cv.rows m <= ybr ->
  forall px py v, cv.at_ (Geometry.draw_mask Pf g m) px py = Some v -> v = 255.
Proof.
  intros xtl ytl xbr ybr Hname Hwf Hw Hh Hx Hy Hc Hr px py v.
  rewrite draw_mask_paint, at_paint.
  destruct (cv.at_ m px py) as [v0|] eqn:Hat; simpl; [|done].
  pose proof (proj1 (at_well_formed m px py Hwf) (ex_intro _ v0 Hat)) as [Hbx Hby].
  unfold covered. rewrite Hname. simpl. unfold box_rect. fold xtl ytl xbr ybr.
  rewrite !to_int_id by done. rewrite rect_covers_spec by lia.
  destruct (Z.leb_spec xtl (Z.of_nat px)); [|lia].
  destruct (Z.ltb_spec (Z.of_nat px) (xtl + (xbr - xtl))); [|lia].
  destruct (Z.leb_spec ytl (Z.of_nat py)); [|lia].
  destruct (Z.ltb_spec (Z.of_nat py) (ytl + (ybr - ytl))); [|lia].
  simpl. by intros [= <-].
Qed.

(** X6, witness: the box (-5,-5,20,20) on the 10 x 10 canvas. *)
Lemma covering_box_fills_canvas_witness :
  pugi.name Cases.wide_box = "box"%string /\
  well_formed Sample.canvas_10x10 /\
  forall px py v,
    cv.at_ (Geometry.draw_mask Sample.bare Cases.wide_box Sample.canvas_10x10) px py = Some v ->
    v = 255.
Proof.
  assert (well_formed Sample.canvas_10x10) as Hwf.
  { unfold well_formed. simpl. split_and!; try lia; try reflexivity.
    repeat constructor. }
  split_and!; [reflexivity|exact Hwf|].
  apply (covering_box_fills_canvas Sample.bare Cases.wide_box Sample.canvas_10x10);
    [reflexivity|exact Hwf|..]; vm_compute; first [discriminate|split; discriminate].
Defined.

(** ** Masks of an image *)



(** X8.  The combined mask of a label depends on the dimensions of the image
    and on its geometries of that label with one of the five known kinds, in
    their order, and on nothing else: children of other kinds and
    geometries of other labels make no difference. *)
Theorem mask_combined_ignores_other_children (Pf : platform) (img img' : Image.t)
    (label : string) :
  Image.empty_mask img = Image.empty_mask img' ->
  filter (fun g => known_kind (pugi.name g) = true /\ Geometry.label g = label)
    (pugi.children img)
  = filter (fun g => known_kind (pugi.name g) = true /\ Geometry.label g = label)
      (pugi.children img') ->
  Image.mask_combined Pf img label = Image.mask_combined Pf img' label.
Proof.
  intros Hdims Hgeos. rewrite !mask_combined_alt, Hdims.
  destruct (Image.empty_mask img') as [m0|e]; simpl; [|done]. f_equal.
  rewrite <- (draw_all_known Pf (with_label label (pugi.children img))).
  rewrite <- (draw_all_known Pf (with_label label (pugi.children img'))).
  unfold with_label. rewrite !list_filter_filter. unfold Geometry.t in *.
  by rewrite Hgeos.
Qed.

(** X8, witness: a tag and a plate added to the sample image. *)
Lemma mask_combined_ignores_other_children_witness :
  Image.empty_mask Cases.noisy_image = Image.empty_mask Sample.grouped_image /\
  Image.mask_combined Sample.bare Cases.noisy_image "car"
  = Image.mask_combined Sample.bare Sample.grouped_image "car".
Proof.
  split; [reflexivity|].
  apply (mask_combined_ignores_other_children Sample.bare Cases.noisy_image
           Sample.grouped_image "car"); reflexivity.
Defined.

(** X9.  When the height or the width of the image, cast to [int], is
    negative, the making of the empty mask throws.  Then [mask_combined]
    throws for every label; [mask] throws for a label that some geometry of
    the image carries and returns the empty sequence for any other; [masks]
    throws as soon as the image has a child and returns the empty map when
    it has none. *)
Theorem negative_dimensions_throw (Pf : platform) (img : Image.t) (label : string)
    (e : exception) :
  Image.empty_mask img = Throws e ->
  Image.mask_combined Pf img label = Throws e /\
  (with_label label (pugi.children img) <> [] -> Image.mask Pf img label = Throws e) /\
  (with_label label (pugi.children img) = [] -> Image.mask Pf img label = Returns ([], [])) /\
  (pugi.children img <> [] -> Image.masks Pf img = Throws e) /\
  (pugi.children img = [] -> Image.masks Pf img = Returns (∅, [])).
Proof.
  intros He. split; [|split; [|split; [|split]]].
  - unfold Image.mask_combined. by rewrite He.
  - intros Hne. unfold Image.mask.
    rewrite (for_each_skip (fun geo => Geometry.label geo = label)).
    2:{ intros geo s Hn. unfold Image.mask_body. by rewrite bool_decide_true. }
    unfold with_label, Geometry.t in *.
    destruct (filter _ (pugi.children img)) as [|geo rest] eqn:Ef; [done|].
    assert (Geometry.label geo = label) as Hl.
    { assert (geo ∈ geo :: rest) as Hin by left. rewrite <- Ef in Hin.
      by apply list_elem_of_filter in Hin as [? _]. }
    simpl. unfold Image.mask_body. rewrite bool_decide_false by (by intros ?).
    by rewrite He.
  - intros Hnil. unfold Image.mask.
    rewrite (for_each_skip (fun geo => Geometry.label geo = label)).
    2:{ intros geo s Hn. unfold Image.mask_body. by rewrite bool_decide_true. }
    unfold with_label, Geometry.t in *. by rewrite Hnil.
  - intros Hne. unfold Image.masks.
    destruct (pugi.children img) as [|geo rest]; [done|].
    simpl. unfold Image.masks_body. simpl. rewrite lookup_empty.
    unfold Image.empty_mask in He. cbn zeta in He. by rewrite He.
  - intros Hnil. unfold Image.masks. by rewrite Hnil.
Qed.

(** X9, witness: a height of 3000000000. *)
Lemma negative_dimensions_throw_witness :
  Image.empty_mask Cases.huge_image = Throws (cv_Exception "Assertion failed: s >= 0") /\
  Image.mask_combined Sample.bare Cases.huge_image "car"
  = Throws (cv_Exception "Assertion failed: s >= 0").
Proof.
  split; [reflexivity|].
  exact (proj1 (negative_dimensions_throw Sample.bare Cases.huge_image "car" _ eq_refl)).
Defined.

(** X10.  The two modes agree: whenever the image admits a mask, the
    pixel-wise union of the entries [mask] returns for a label is the
    combined mask of the label. *)
Theorem grouped_masks_union_is_combined (Pf : platform) (img : Image.t) (label : string)
    (m0 : cv.Mat) :
  Image.empty_mask img = Returns m0 ->
  exists v ms,
    Image.mask Pf img label = Returns v /\
    Image.pixels v = Some <$> ms /\
    Image.mask_combined Pf img label = Returns (foldr mat_or m0 ms).
Proof.
  intros Hm0.
  destruct (mask_loop_invariant Pf img label m0 (with_label label (pugi.children img))
              [] (Image.mkLocals [] ∅ []) Hm0) as (st & Hst & Inv).
  { apply Forall_forall. by intros g [? _]%list_elem_of_filter. }
  { apply invariant_start. }
  simpl in Inv.
  exists (Image.result_ st, Image.store st),
    ((fun g => draw_all Pf (partition_of (with_label label (pugi.children img)) g) m0)
       <$> with_label label (pugi.children img)).
  split; [|split].
  - unfold Image.mask.
    rewrite (for_each_skip (fun g => Geometry.label g = label)).
    2:{ intros g s Hg. unfold Image.mask_body. by rewrite bool_decide_true. }
    unfold with_label, Geometry.t in *. by rewrite Hst.
  - rewrite (invariant_pixels Pf m0 _ _ Inv). by rewrite <- list_fmap_compose.
  - rewrite (mask_combined_draw_all Pf img label m0 Hm0). f_equal.
    rewrite draw_all_paint.
    erewrite list_fmap_ext.
    2:{ intros i g _. apply draw_all_paint. }
    rewrite (union_of_paints (fun g px py =>
               existsb (fun g' => covered Pf g' (cv.rows m0) (cv.cols m0) px py)
                 (partition_of (with_label label (pugi.children img)) g))).
    + apply paint_ext. intros px py. symmetry. apply partition_of_covers.
    + apply binary_zero. exact (proj2 (empty_mask_zero img m0 Hm0)).
Qed.

(** X10, witness: the sample image and the label car. *)
Lemma grouped_masks_union_is_combined_witness :
  Image.empty_mask Sample.grouped_image = Returns Sample.canvas_10x10 /\
  exists v ms,
    Image.mask Sample.bare Sample.grouped_image "car" = Returns v /\
    Image.pixels v = Some <$> ms /\
    Image.mask_combined Sample.bare Sample.grouped_image "car"
    = Returns (foldr mat_or Sample.canvas_10x10 ms).
Proof.
  split; [reflexivity|].
  exact (grouped_masks_union_is_combined Sample.bare Sample.grouped_image "car"
           Sample.canvas_10x10 eq_refl).
Defined.

(** X11.  Whenever the image admits a mask, [masks] returns a map with one
    buffer for every label that a child of the image carries, and no other
    entry.  The buffer of a label holds, drawn on an empty mask in document
    order, the geometries without a group that carry the label and every
    geometry of a group whose first member carries the label: a geometry of
    a group is drawn on the buffer of the label of the first geometry of its
    group, not on that of its own label. *)
Theorem masks_buffer_per_label (Pf : platform) (img : Image.t) (m0 : cv.Mat) :
  Image.empty_mask img = Returns m0 ->
  exists v,
    Image.masks Pf img = Returns v /\
    (forall label, label ∈ Image.labels img ->
       Image.mask_of v label
       = Some (draw_all Pf (drawn_under (pugi.children img) label) m0)) /\
    (forall label, label ∉ Image.labels img -> Image.mask_of v label = None).
Proof.
  intros Hm0. destruct (masks_returns_invariant Pf img m0 Hm0) as (st & Hv & Inv).
  eexists. split; [exact Hv|]. split; intros label Hl.
  - by apply mask_of_labelled.
  - by eapply mask_of_unlabelled.
Qed.

(** X11, witness: the plate of group 1 is drawn on the mask of car, whose
    box opens the group. *)
Lemma masks_buffer_per_label_witness :
  Image.empty_mask Cases.shared_group_image = Returns Cases.canvas_2x4 /\
  ByLabel.drawn_under (pugi.children Cases.shared_group_image) "car"
  = [Some (Sample.box "car" (Some "1") "0" "0" "1" "1");
     Some (Sample.box "plate" (Some "1") "2" "0" "3" "1")] /\
  exists v,
    Image.masks Sample.bare Cases.shared_group_image = Returns v /\
    Image.mask_of v "car"
    = Some (draw_all Sample.bare
              (ByLabel.drawn_under (pugi.children Cases.shared_group_image) "car")
              Cases.canvas_2x4).
Proof.
  split_and!; [reflexivity|reflexivity|].
  destruct (masks_buffer_per_label Sample.bare Cases.shared_group_image Cases.canvas_2x4
              eq_refl) as (v & Hv & Hin & _).
  exists v. split; [exact Hv|]. apply Hin.
  apply list_elem_of_In. left. reflexivity.
Defined.

(** X12.  On an image without groups that admits a mask, the buffer [masks]
    files under a label is the combined mask of that label, for every label
    of the image. *)
Theorem masks_without_groups_is_combined (Pf : platform) (img : Image.t) (m0 : cv.Mat) :
  Image.empty_mask img = Returns m0 ->
  Forall (fun g => Geometry.group g = None) (pugi.children img) ->
  exists v,
    Image.masks Pf img = Returns v /\
    forall label, label ∈ Image.labels img ->
      exists m, Image.mask_of v label = Some m /\
                Image.mask_combined Pf img label = Returns m.
Proof.
  intros Hm0 Hnone. destruct (masks_returns_invariant Pf img m0 Hm0) as (st & Hv & Inv).
  eexists. split; [exact Hv|]. intros label Hin.
  eexists. split; [by apply mask_of_labelled|].
  rewrite (mask_combined_draw_all Pf img label m0 Hm0). do 2 f_equal.
  unfold with_label, drawn_under. apply filter_ext_in.
  apply Forall_impl with (1 := Hnone). intros g Hg. by rewrite owner_ungrouped.
Qed.

(** X12, witness: a car and a plate without groups. *)
Lemma masks_without_groups_is_combined_witness :
  Image.empty_mask Cases.two_label_image = Returns Cases.canvas_2x4 /\
  Forall (fun g => Geometry.group g = None) (pugi.children Cases.two_label_image) /\
  exists v,
    Image.masks Sample.bare Cases.two_label_image = Returns v /\
    exists m, Image.mask_of v "plate" = Some m /\
              Image.mask_combined Sample.bare Cases.two_label_image "plate" = Returns m.
Proof.
  assert (Forall (fun g => Geometry.group g = None) (pugi.children Cases.two_label_image))
    as H by (repeat constructor).
  split_and!; [reflexivity|exact H|].
  destruct (masks_without_groups_is_combined Sample.bare Cases.two_label_image
              Cases.canvas_2x4 eq_refl H) as (v & Hv & Hall).
  exists v. split; [exact Hv|]. apply Hall.
  apply list_elem_of_In. right. left. reflexivity.
Defined.

(** X13.  [CVATMaskGenerator::masks(filename, label)] and [Image::mask]
    agree.  When one image of the document has the filename and admits a
    mask, its height and width read as [int] are their casts to [int], and
    every [group_id] of the label read as [int] is its cast to [int], the
    generator returns a sequence with the same pixels, entry by entry, as
    [mask] returns for that image and label, and the same entries of the two
    sequences are one buffer. *)
Theorem masks_of_file_agrees_with_image_mask (Pf : platform) (g : CVATMaskGenerator.t)
    (filename label : string) (img : Image.t) (m0 : cv.Mat) :
  filter (fun image => Image.filename image = filename) (CVATMaskGenerator.images g) = [img] ->
  Image.empty_mask img = Returns m0 ->
  pugi.as_int (pugi.attribute img "height") = to_int (Image.height img) ->
  pugi.as_int (pugi.attribute img "width") = to_int (Image.width img) ->
  Forall (fun geo => forall id, Geometry.group geo = Some id ->
            pugi.as_int (pugi.attribute geo "group_id") = to_int id)
    (with_label label (pugi.children img)) ->
  exists v v',
    CVATMaskGenerator.masks Pf g filename label = Returns v /\
    Image.mask Pf img label = Returns v' /\
    Image.pixels v = Image.pixels v' /\
    forall i j, (i < length v.1)%nat -> (j < length v.1)%nat ->
      v.1 !! i = v.1 !! j <-> v'.1 !! i = v'.1 !! j.
Proof.
  intros Hone Hm0 Hh Hw Hids.
  (* the member function of the image *)
  destruct (mask_loop_invariant Pf img label m0 (with_label label (pugi.children img))
              [] (Image.mkLocals [] ∅ []) Hm0) as (st' & Hst' & Inv').
  { apply Forall_forall. by intros geo [? _]%list_elem_of_filter. }
  { apply invariant_start. }
  (* the loop of the generator *)
  destruct (masks_geometry_loop Pf (pugi.as_int (pugi.attribute img "height"))
              (pugi.as_int (pugi.attribute img "width")) label m0
              (with_label label (pugi.children img)) [] (Image.mkLocals [] ∅ []))
    as (st & Hst & Inv).
  { rewrite Hh, Hw. exact Hm0. }
  { apply Forall_forall. intros geo Hgeo. split.
    - by apply list_elem_of_filter in Hgeo as [? _].
    - rewrite Forall_forall in Hids. by apply Hids. }
  { apply invariant_start. }
  simpl in Inv, Inv'.
  exists (Image.result_ st, Image.store st), (Image.result_ st', Image.store st').
  split; [|split; [|split]].
  - assert (Image.filename img = filename) as Hname.
    { assert (img ∈ filter (fun image => Image.filename image = filename)
                      (CVATMaskGenerator.images g)) as Hin by (rewrite Hone; left).
      by apply list_elem_of_filter in Hin as [? _]. }
    unfold CVATMaskGenerator.masks.
    rewrite (for_each_skip (fun image => Image.filename image = filename)).
    2:{ intros image acc Hne. unfold CVATMaskGenerator.masks_image.
        rewrite bool_decide_true; [done|]. intros ->. by apply Hne. }
    unfold CVATMaskGenerator.images, Image.t in *. rewrite Hone. simpl.
    unfold CVATMaskGenerator.masks_image.
    rewrite bool_decide_false by (intros H; apply H; by rewrite <- Hname).
    simpl.
    rewrite (for_each_skip (fun geo => Geometry.label geo = label)).
    2:{ intros geo s Hne. unfold CVATMaskGenerator.masks_geometry.
        rewrite bool_decide_true; [done|]. intros ->. by apply Hne. }
    unfold with_label, Geometry.t in *. by rewrite Hst.
  - unfold Image.mask.
    rewrite (for_each_skip (fun geo => Geometry.label geo = label)).
    2:{ intros geo s Hne. unfold Image.mask_body. by rewrite bool_decide_true. }
    unfold with_label, Geometry.t in *. by rewrite Hst'.
  - by rewrite (invariant_pixels Pf m0 _ _ Inv), (invariant_pixels Pf m0 _ _ Inv').
  - simpl. intros i j Hi Hj.
    rewrite (inv_length _ _ _ _ Inv) in Hi, Hj.
    apply lookup_lt_is_Some in Hi as [gi Hgi]. apply lookup_lt_is_Some in Hj as [gj Hgj].
    rewrite (invariant_aliasing Pf m0 _ _ i j gi gj Inv Hgi Hgj).
    by rewrite (invariant_aliasing Pf m0 _ _ i j gi gj Inv' Hgi Hgj).
Qed.

(** X13, witness: the sample image in a document. *)
Lemma masks_of_file_agrees_with_image_mask_witness :
  filter (fun image => Image.filename image = "a.jpg"%string)
    (CVATMaskGenerator.images (CVATMaskGenerator.make Cases.grouped_document))
  = [Sample.grouped_image] /\
  exists v v',
    CVATMaskGenerator.masks Sample.bare (CVATMaskGenerator.make Cases.grouped_document)
      "a.jpg" "car" = Returns v /\
    Image.mask Sample.bare Sample.grouped_image "car" = Returns v' /\
    Image.pixels v = Image.pixels v'.
Proof.
  split; [reflexivity|].
  destruct (masks_of_file_agrees_with_image_mask Sample.bare
              (CVATMaskGenerator.make Cases.grouped_document) "a.jpg" "car"
              Sample.grouped_image Sample.canvas_10x10)
    as (v & v' & Hv & Hv' & Hpx & _); try reflexivity.
  - repeat constructor; intros id [= <-]; reflexivity.
  - exists v, v'. split_and!; assumption.
Defined.

(** ** Listings of the generator *)

(** X14.  [labels(filename)] lists the label of every child of every image
    with that filename, image after image in document order; the part of an
    image is what [Image::labels] returns for it, the label of each of its
    children, repeated as often as it occurs. *)
Theorem labels_of_file_collects_image_labels (g : CVATMaskGenerator.t) (filename : string) :
  CVATMaskGenerator.labels_of_file g filename
  = concat (Image.labels
              <$> filter (fun image => Image.filename image = filename)
                    (CVATMaskGenerator.images g)) /\
  forall img, Image.labels img = Geometry.label <$> pugi.children img.
Proof.
  split; [|apply image_labels_map].
  unfold CVATMaskGenerator.labels_of_file. by rewrite labels_of_file_from.
Qed.

(** X15.  [filenames] lists the [name] of every image that has the
    attribute, in document order; images without it are left out, names that
    occur twice are listed twice. *)
Theorem filenames_lists_named_images (g : CVATMaskGenerator.t) :
  CVATMaskGenerator.filenames g
  = omap (fun image => pugi.attribute image "name") (CVATMaskGenerator.images g) /\
  (forall f, f ∈ CVATMaskGenerator.filenames g <->
             exists image, image ∈ CVATMaskGenerator.images g /\
                           pugi.attribute image "name" = Some f).
Proof.
  assert (CVATMaskGenerator.filenames g
          = omap (fun image => pugi.attribute image "name") (CVATMaskGenerator.images g)) as E
    by (unfold CVATMaskGenerator.filenames; by rewrite filenames_from).
  split; [exact E|]. intros f. rewrite E. apply list_elem_of_omap.
Qed.

(** X16.  For a filename that is not empty and that [filenames] does not
    list, [labels(filename)] is empty and [masks(filename, label)] returns
    the empty sequence, without an error. *)
Theorem unlisted_filename_gives_nothing (Pf : platform) (g : CVATMaskGenerator.t)
    (filename label : string) :
  filename ∉ CVATMaskGenerator.filenames g ->
  filename <> EmptyString ->
  CVATMaskGenerator.labels_of_file g filename = [] /\
  CVATMaskGenerator.masks Pf g filename label = Returns ([], []).
Proof.
  intros Hnot Hne.
  assert (Forall (fun image => pugi.as_string (pugi.attribute image "name") <> filename)
            (CVATMaskGenerator.images g)) as Hall.
  { apply Forall_forall. intros image Hin Heq. apply Hnot.
    unfold CVATMaskGenerator.filenames. rewrite filenames_from. simpl.
    apply list_elem_of_omap. exists image. split; [done|].
    destruct (pugi.attribute image "name") as [n|]; simpl in *; congruence. }
  split.
  - unfold CVATMaskGenerator.labels_of_file. rewrite labels_of_file_from. simpl.
    match goal with |- context [filter ?P ?l] => assert (filter P l = []) as -> end;
      [|done].
    unfold CVATMaskGenerator.images in Hall.
    induction Hall as [|image images Hi _ IH]; [done|].
    rewrite filter_cons. rewrite decide_False by (unfold Image.filename; done). exact IH.
  - unfold CVATMaskGenerator.masks. unfold CVATMaskGenerator.images in Hall.
    rewrite for_each_all_skip; [done|].
    eapply Forall_impl; [exact Hall|]. intros image Him s. simpl in Him.
    unfold CVATMaskGenerator.masks_image. rewrite bool_decide_true by congruence. done.
Qed.

(** X16, witness: the sample document has no image other.jpg. *)
Lemma unlisted_filename_gives_nothing_witness :
  CVATMaskGenerator.filenames (CVATMaskGenerator.make Sample.car_document)
  = ["frame.jpg"%string] /\
  CVATMaskGenerator.masks Sample.bare (CVATMaskGenerator.make Sample.car_document)
    "other.jpg" "car" = Returns ([], []).
Proof.
  split; [reflexivity|].
  refine (proj2 (unlisted_filename_gives_nothing Sample.bare
                   (CVATMaskGenerator.make Sample.car_document) "other.jpg" "car" _ _)).
  - intros Hin. apply list_elem_of_In in Hin. destruct Hin as [H|[]]. discriminate H.
  - discriminate.
Defined.

(** ** The pipeline *)

(** X17.  The file a task writes for a label.  When the filename of the
    image is a stem, a period and an extension (the extension not empty and
    free of periods and slashes, the last component of the stem not empty),
    every call of [imwrite] of the task goes to
    [output_directory / label / stem.png] for a label of the catalog, with
    the combined mask of that label. *)
Theorem task_writes_stem_png (W : world) (Pf : platform) (fs : filesystem W)
    (image : Image.t) (output_directory : string) (labels : list string)
    (stem ext : list ascii) :
  c_str (Image.filename image) = stem ++ "."%char :: ext ->
  path.filename stem <> [] -> ext <> [] ->
  plain "."%char ext -> plain "/"%char ext ->
  forall call, call ∈ (task W Pf fs image output_directory labels).1 ->
    exists l, l ∈ labels /\
      call.1 = path.append (path.append output_directory l)
                 (string_of_list_ascii (stem ++ c_str ".png")) /\
      Image.mask_combined Pf image l = Returns call.2.
Proof.
  intros Hname Hstem Hext Hdot Hslash call Hin. unfold task in Hin.
  rewrite (replace_extension_of_stem_ext _ stem ext) in Hin by done.
  by apply (write_labels_paths W Pf) in Hin.
Qed.

(** X17, witness: frame.jpg is written as out/car/frame.png. *)
Lemma task_writes_stem_png_witness :
  c_str (Image.filename Cases.frame_image) = c_str "frame" ++ "."%char :: c_str "jpg" /\
  forall call,
    call ∈ (task (Sample.memory_world (Sample.one_file Sample.car_document) Sample.sink_ok)
              Sample.bare [] Cases.frame_image "out" ["car"%string]).1 ->
    exists l, l ∈ ["car"%string] /\
      call.1 = path.append (path.append "out" l)
                 (string_of_list_ascii (c_str "frame" ++ c_str ".png")) /\
      Image.mask_combined Sample.bare Cases.frame_image l = Returns call.2.
Proof.
  split; [reflexivity|].
  apply (task_writes_stem_png
           (Sample.memory_world (Sample.one_file Sample.car_document) Sample.sink_ok)
           Sample.bare [] Cases.frame_image "out" ["car"%string]
           (c_str "frame") (c_str "jpg")).
  - reflexivity.
  - discriminate.
  - discriminate.
  - repeat constructor; discriminate.
  - repeat constructor; discriminate.
Defined.




(** X20.  A document without label declarations makes the run create no
    directory and write no file: a task is launched for every image and
    writes nothing, and the process ends with exit code 0.  Without the
    [annotations] root there is no image either. *)
Theorem missing_catalog_or_root_writes_nothing (W : world) (Pf : platform)
    (fs : filesystem W) (cvat_file output_directory : string) :
  let g := CVATMaskGenerator.from_file W cvat_file in
  (pugi.children (pugi.child (CVATMaskGenerator.m_task g) "labels") = [] ->
   main W Pf fs (cli_parsed cvat_file output_directory)
   = mkEnd 0 EmptyString
       (Some (mkRun [] ((fun _ => ([], Returns tt)) <$> CVATMaskGenerator.images g)))) /\
  (CVATMaskGenerator.m_annotations g = None ->
   main W Pf fs (cli_parsed cvat_file output_directory)
   = mkEnd 0 EmptyString (Some (mkRun [] []))).
Proof.
  intros g.
  assert (pugi.children (pugi.child (CVATMaskGenerator.m_task g) "labels") = [] ->
   main W Pf fs (cli_parsed cvat_file output_directory)
   = mkEnd 0 EmptyString
       (Some (mkRun [] ((fun _ => ([], Returns tt)) <$> CVATMaskGenerator.images g)))) as H1.
  { intros H. unfold main, write_masks_to_directory. fold g.
    rewrite (labels_empty_catalog g H). simpl. done. }
  split; [exact H1|].
  intros Hroot. rewrite H1.
  - unfold CVATMaskGenerator.images. by rewrite Hroot.
  - unfold g, CVATMaskGenerator.from_file in *.
    destruct (load_file W cvat_file) as [st doc]. unfold CVATMaskGenerator.make in *.
    simpl in *. by rewrite Hroot.
Qed.

(** X20, witness: the sample document without a catalog. *)
Lemma missing_catalog_or_root_writes_nothing_witness :
  pugi.children
    (pugi.child
       (CVATMaskGenerator.m_task
          (CVATMaskGenerator.from_file
             (Sample.memory_world (Sample.one_file Sample.no_catalog_document) Sample.sink_ok)
             "annotations.xml")) "labels") = [] /\
  exit_code
    (main (Sample.memory_world (Sample.one_file Sample.no_catalog_document) Sample.sink_ok)
       Sample.bare [] (cli_parsed "annotations.xml" "out")) = 0.
Proof.
  split; [reflexivity|].
  rewrite (proj1 (missing_catalog_or_root_writes_nothing
                    (Sample.memory_world (Sample.one_file Sample.no_catalog_document)
                       Sample.sink_ok)
                    Sample.bare [] "annotations.xml" "out") eq_refl).
  reflexivity.
Defined.
